(** * hirefire.procs.celery: queue depth of a Celery proc

    A shallow embedding of [src/hirefire/procs/celery.py]: the
    [CeleryInspector] cache of worker inspection results and the
    [CeleryProc.quantity] / [CeleryProc.inspect_count] polling procedure,
    followed by the properties the specification states about them.

    Python values are embedded as follows.
    - [int] is [Z]; [str] is [string]; a [list] is a [list].
    - A [dict] used as a finite map is a [gmap]; a worker reply (a dict from
      worker name to a list of records, only ever read through [.values()])
      is the list of its items in iteration order.
    - A raised exception is the [Raise] result; mutations already made when
      an exception is raised stay in place, as in Python.
    - Calls to the workers ([inspect().active_queues()], [inspect().active()],
      ...) and constructions of inspector objects are recorded as a list of
      [Event]s emitted by each operation. A call to the workers may fail;
      a [World] used where [Workers] are expected stands for workers that
      answer every query. *)

From stdpp Require Import base option list strings gmap fin_maps.
From Stdlib Require Import ZArith Lia.

Local Open Scope Z_scope.

(** ** Exceptions and results *)

Inductive Exception : Type :=
| KeyError (args : list string)
| ChannelError
| AttributeError (attr : string)
| OtherError (what : string).

Inductive Result (A : Type) : Type :=
| Ok (a : A)
| Raise (e : Exception).
Arguments Ok {A} a.
Arguments Raise {A} e.

Definition is_ok {A} (r : Result A) : bool :=
  match r with Ok _ => true | Raise _ => false end.

(** ** The worker inspection API (external collaborator) *)

(** An application handle; two procs share an inspector exactly when their
    handles are equal. *)
Definition AppHandle : Type := nat.

(** A queue-binding record: [queue['exchange']['name']],
    [queue['routing_key']], [queue['name']]. *)
Record Exchange : Type := { exchange_name : string }.
Record QueueBinding : Type :=
  { qb_exchange : Exchange; qb_routing_key : string; qb_name : string }.

(** A task record: [task['delivery_info']['exchange']] and
    [task['delivery_info']['routing_key']]. *)
Record DeliveryInfo : Type := { exchange : string; routing_key : string }.
Record Task : Type := { delivery_info : DeliveryInfo }.

(** A reply of [inspect()]: worker name to list of records, in the order
    [.values()] iterates. *)
Definition Reply (A : Type) : Type := list (string * list A).

Definition values {A} (r : Reply A) : list (list A) := map snd r.
Definition chain_from_iterable {A} (ls : list (list A)) : list A := concat ls.

Record Control : Type :=
  { active_queues : Reply QueueBinding;
    active : Reply Task;
    reserved : Reply Task;
    scheduled : Reply Task }.

(** What the workers of each application answer at the time of a call. *)
Definition World : Type := AppHandle -> Control.

(** The workers as a call finds them: what they would answer, and which of
    their queries fail. [trouble ws a query = Some e] says that the
    inspection method named [query] ('active_queues', 'active', 'reserved'
    or 'scheduled'), asked of the workers of application [a], ends with the
    exception [e]: either the call itself raises [e] (workers or broker
    unreachable), or no worker replies, the call returns [None] and reading
    [.values()] of it raises an [AttributeError]. In both cases the
    exception leaves the calling method at that line. *)
Record Workers : Type :=
  { answers : World;
    trouble : AppHandle -> string -> option Exception }.

(** Workers that answer every query. *)
Definition reliable (w : World) : Workers :=
  {| answers := w; trouble := λ _ _, None |}.
Coercion reliable : World >-> Workers.

(** [getattr(inspect(), status)]: the method named [status], if any. *)
Definition inspect_getattr (c : Control) (status : string) : option (Reply Task) :=
  if decide (status = "active") then Some (active c)
  else if decide (status = "reserved") then Some (reserved c)
  else if decide (status = "scheduled") then Some (scheduled c)
  else None.

(** ** Observable events *)

Inductive Event : Type :=
| NewInspector (a : AppHandle)
| QueryActiveQueues (a : AppHandle)
| QueryStatus (a : AppHandle) (status : string).

Global Instance Event_eq_dec : EqDecision Event.
Proof. solve_decision. Defined.

Definition count_event (e : Event) (tr : list Event) : nat :=
  length (filter (λ x, x = e) tr).

(** ** Computations: state, emitted events, exceptions *)

Definition M (S A : Type) : Type := S -> Result A * S * list Event.

Definition ret {S A} (a : A) : M S A := λ s, (Ok a, s, []).
Definition raise {S A} (e : Exception) : M S A := λ s, (Raise e, s, []).
Definition emit {S} (e : Event) : M S unit := λ s, (Ok tt, s, [e]).
Definition bind {S A B} (m : M S A) (k : A -> M S B) : M S B :=
  λ s, match m s with
       | (Ok a, s1, tr1) =>
           match k a s1 with (r, s2, tr2) => (r, s2, tr1 ++ tr2) end
       | (Raise e, s1, tr1) => (Raise e, s1, tr1)
       end.

Notation "'do' x <- m ; k" := (bind m (λ x, k))
  (at level 10, x name, m at level 100, k at level 200).

(** [sum(f(x) for x in xs)], starting from [acc]; the first exception stops
    the iteration. *)
Fixpoint sum_gen {S A} (f : A -> M S Z) (xs : list A) (acc : Z) : M S Z :=
  match xs with
  | [] => ret acc
  | x :: xs' => do n <- f x; sum_gen f xs' (acc + n)
  end.

(** ** collections.Counter *)

Abbreviation Counter := (gmap string Z).

(** [c[q]]: a missing key counts 0 and is not stored. *)
Definition counter_get (c : Counter) (q : string) : Z := default 0 (c !! q).

(** [Counter(iterable)]: one increment per element, in order. *)
Definition counter_add (c : Counter) (q : string) : Counter :=
  <[q := counter_get c q + 1]> c.
Definition Counter_of (qs : list string) : Counter :=
  fold_left counter_add qs ∅.

(** ** KeyDefaultDict *)

Section KeyDefaultDict.
Context {K : Type} `{Countable K} {V S : Type}.
Variable items : S -> gmap K V.
Variable set_items : gmap K V -> S -> S.
Variable default_factory : K -> M S V.

(** Modelled from the spec: [hirefire.utils.KeyDefaultDict], imported by
    [celery.py] from [hirefire/utils.py]. The spec describes it as a lazy
    memoized mapping with default computation by key: an on-demand cache
    keyed by identity, computed via the supplied function on first miss
    and stored thereafter. The dict is held inside the state [S] (the
    factory may be a method of the object that is the dict); when the
    factory raises there is no value to store and the error propagates. *)
Definition kdd_getitem (key : K) : M S V :=
  λ s, match items s !! key with
       | Some v => (Ok v, s, [])
       | None =>
           bind (default_factory key)
                (λ v s', (Ok v, set_items (<[key := v]> (items s')) s', [])) s
       end.
End KeyDefaultDict.

(** ** CeleryInspector *)

Abbreviation RouteTable := (gmap (string * string) string).

(** The inspector object: its [app], its [route_queues] attribute ([None]
    until resolved) and its own dict contents, status to tally. *)
Record Inspector : Type :=
  { insp_app : AppHandle;
    route_queues : option RouteTable;
    insp_items : gmap string Counter }.

Definition set_route_queues (r : RouteTable) (self : Inspector) : Inspector :=
  {| insp_app := insp_app self; route_queues := Some r;
     insp_items := insp_items self |}.
Definition set_insp_items (d : gmap string Counter) (self : Inspector) : Inspector :=
  {| insp_app := insp_app self; route_queues := route_queues self;
     insp_items := d |}.

(** [CeleryInspector.__init__] *)
Definition CeleryInspector (app : AppHandle) : Inspector :=
  {| insp_app := app; route_queues := None; insp_items := ∅ |}.

(** The dict comprehension of [get_route_queues]: later records overwrite
    earlier ones with the same key. *)
Definition route_entry (rt : RouteTable) (queue : QueueBinding) : RouteTable :=
  <[(exchange_name (qb_exchange queue), qb_routing_key queue) := qb_name queue]> rt.
Definition build_route_queues (active_queues : list QueueBinding) : RouteTable :=
  fold_left route_entry active_queues ∅.

Definition get_route_queues (ws : Workers) : M Inspector RouteTable :=
  λ self,
    match route_queues self with
    | Some r => (Ok r, self, [])
    | None =>
        match trouble ws (insp_app self) "active_queues" with
        | Some e =>
            (* the query, or [.values()] of its reply, raises: nothing is
               assigned *)
            (Raise e, self, [QueryActiveQueues (insp_app self)])
        | None =>
            let worker_queues := active_queues (answers ws (insp_app self)) in
            let active_queues := chain_from_iterable (values worker_queues) in
            let r := build_route_queues active_queues in
            (Ok r, set_route_queues r self, [QueryActiveQueues (insp_app self)])
        end
    end.

(** The nested [get_queue] of [get_status_task_counts]. *)
Definition get_queue (route_queues : RouteTable) (task : Task) : Result string :=
  let exchange := exchange (delivery_info task) in
  let routing_key := routing_key (delivery_info task) in
  match route_queues !! (exchange, routing_key) with
  | Some q => Ok q
  | None => Raise (KeyError [exchange; routing_key])
  end.

(** [map(get_queue, tasks)] as consumed by [Counter]: the first failing
    lookup raises. *)
Fixpoint map_get_queue (route_queues : RouteTable) (tasks : list Task)
  : Result (list string) :=
  match tasks with
  | [] => Ok []
  | t :: ts =>
      match get_queue route_queues t with
      | Raise e => Raise e
      | Ok q =>
          match map_get_queue route_queues ts with
          | Raise e => Raise e
          | Ok qs => Ok (q :: qs)
          end
      end
  end.

Definition valid_statuses : list string := ["active"; "reserved"; "scheduled"].

Definition get_status_task_counts (ws : Workers) (status : string)
  : M Inspector Counter :=
  if bool_decide (status ∈ valid_statuses) then
    do route_queues <- get_route_queues ws;
    λ self,
      match inspect_getattr (answers ws (insp_app self)) status with
      | None => (Raise (AttributeError status), self, [])
      | Some inspected =>
          match trouble ws (insp_app self) status with
          | Some e =>
              (* the query, or [.values()] of its reply, raises *)
              (Raise e, self, [QueryStatus (insp_app self) status])
          | None =>
              match map_get_queue route_queues
                      (chain_from_iterable (values inspected)) with
              | Raise e => (Raise e, self, [QueryStatus (insp_app self) status])
              | Ok queues =>
                  (Ok (Counter_of queues), self,
                   [QueryStatus (insp_app self) status])
              end
          end
      end
  else raise (KeyError ["Invalid task status: " +:+ status]).

(** [inspector[status]]: the inspector is a [KeyDefaultDict] whose factory
    is its own [get_status_task_counts]. *)
Definition inspector_getitem (ws : Workers) (status : string) : M Inspector Counter :=
  kdd_getitem insp_items set_insp_items (get_status_task_counts ws) status.

(** ** CeleryProc *)

(** The broker channel. [_size] is present on channels with a direct
    current-size query ([hasattr(self.channel, '_size')]);
    [queue_declare q] is [channel.queue_declare(q, passive=True)] followed
    by reading [.message_count]. Either may raise. *)
Record Channel : Type :=
  { _size : option (string -> Result Z);
    queue_declare : string -> Result Z }.

Record CeleryProc : Type :=
  { name : string;
    queues : list string;
    app : AppHandle;
    inspect_statuses : list string;
    channel : Channel }.

(** The registry [KeyDefaultDict(CeleryInspector)] and the caller's cache
    dict, of which only registry-valued entries are modelled. *)
Abbreviation Registry := (gmap AppHandle Inspector).
Abbreviation Cache := (gmap string Registry).

Definition lift_result {S A} (r : Result A) : M S A := λ s, (r, s, []).

(** Run a computation on the object stored under [key], writing the
    mutated object back: the stored object is shared by reference. *)
Definition at_key {K} `{Countable K} {V A} (key : K) (m : M V A)
  : M (gmap K V) A :=
  λ d, match d !! key with
       | Some v => match m v with (r, v', tr) => (r, <[key := v']> d, tr) end
       | None => (Raise (KeyError []), d, [])
       end.

(** [cache.setdefault(key, default)] *)
Definition setdefault (key : string) (default : Registry) : M Cache unit :=
  λ cache, match cache !! key with
           | Some _ => (Ok tt, cache, [])
           | None => (Ok tt, <[key := default]> cache, [])
           end.

(** The factory of the registry: constructing an inspector. *)
Definition new_inspector (app : AppHandle) : M Registry Inspector :=
  do _ <- emit (NewInspector app); ret (CeleryInspector app).

(** [registry[app]] *)
Definition registry_getitem (app : AppHandle) : M Registry Inspector :=
  kdd_getitem id (λ d _, d) new_inspector app.

(** [cache['celery_inspect'][self.app][status][queue]] *)
Definition inspect_item (w : Workers) (app : AppHandle) (status queue : string)
  : M Cache Z :=
  at_key "celery_inspect"
    (do _ <- registry_getitem app;
     do counts <- at_key app (inspector_getitem w status);
     ret (counter_get counts queue)).

(** The pairs visited by [for status in statuses for queue in queues]. *)
Definition gen_pairs (statuses queues : list string) : list (string * string) :=
  flat_map (λ status, map (pair status) queues) statuses.

Definition inspect_count (w : Workers) (self : CeleryProc) : M Cache Z :=
  do _ <- setdefault "celery_inspect" ∅;
  sum_gen (λ sq, inspect_item w (app self) sq.1 sq.2)
          (gen_pairs (inspect_statuses self) (queues self)) 0.

(** The AMQP loop of [quantity]: a [ChannelError] of the passive declare is
    passed over, any other exception propagates. *)
Fixpoint declare_loop (ch : Channel) (queues : list string) (count : Z)
  : Result Z :=
  match queues with
  | [] => Ok count
  | queue :: rest =>
      match queue_declare ch queue with
      | Raise ChannelError => declare_loop ch rest count
      | Raise e => Raise e
      | Ok message_count => declare_loop ch rest (count + message_count)
      end
  end.

(** [quantity(cache=cache)]; the state is the caller's cache, [None] when
    no cache is passed. *)
Definition quantity (w : Workers) (self : CeleryProc) : M (option Cache) Z :=
  match _size (channel self) with
  | Some _size =>
      (* Redis *)
      sum_gen (λ queue, lift_result (_size queue)) (queues self) 0
  | None =>
      (* AMQP *)
      do count <- lift_result (declare_loop (channel self) (queues self) 0);
      λ cache,
        match cache with
        | Some c =>
            if bool_decide (inspect_statuses self ≠ []) then
              match inspect_count w self c with
              | (Ok n, c', tr) => (Ok (count + n), Some c', tr)
              | (Raise e, c', tr) => (Raise e, Some c', tr)
              end
            else (Ok count, cache, [])
        | None => (Ok count, cache, [])
        end
  end.

(** * Definitions used in the statements *)

(** The sum of a list of integers. *)
Definition Zsum (l : list Z) : Z := foldr Z.add 0 l.

(** What one queue adds on the passive-declare path when the declare
    either succeeds or fails with a channel error. *)
Definition declare_contribution (ch : Channel) (q : string) : Z :=
  match queue_declare ch q with
  | Ok message_count => message_count
  | Raise _ => 0
  end.

(** ** Example channels, procs and worlds *)

Definition missing_x_channel : Channel :=
  {| _size := None;
     queue_declare := λ q, if decide (q = "y") then Ok 5 else Raise ChannelError |}.
Definition xy_proc : CeleryProc :=
  {| name := "worker"; queues := ["x"; "y"]; app := 0%nat;
     inspect_statuses := []; channel := missing_x_channel |}.
Definition redis_channel : Channel :=
  {| _size := Some (λ q, if decide (q = "y") then Ok 5 else Ok 2);
     queue_declare := λ _, Raise (OtherError "not used") |}.
Definition redis_proc : CeleryProc :=
  {| name := "worker"; queues := ["x"; "y"]; app := 0%nat;
     inspect_statuses := ["active"]; channel := redis_channel |}.
Definition idle_world : World :=
  λ _, {| active_queues := []; active := []; reserved := []; scheduled := [] |}.

(** ** Inspector-level notions *)

(** The key under which a task, resp. a queue binding, is routed. *)
Definition task_key (t : Task) : string * string :=
  (exchange (delivery_info t), routing_key (delivery_info t)).
Definition binding_key (b : QueueBinding) : string * string :=
  (exchange_name (qb_exchange b), qb_routing_key b).

(** The flattened worker replies. *)
Definition worker_bindings (w : World) (a : AppHandle) : list QueueBinding :=
  chain_from_iterable (values (active_queues (w a))).
Definition status_tasks (w : World) (a : AppHandle) (status : string) : list Task :=
  match inspect_getattr (w a) status with
  | Some inspected => chain_from_iterable (values inspected)
  | None => []
  end.

(** The routing table an inspector works with in world [w]: the memoized
    one, or else the one resolved from the workers now. *)
Definition effective_routes (w : World) (self : Inspector) : RouteTable :=
  match route_queues self with
  | Some r => r
  | None => build_route_queues (worker_bindings w (insp_app self))
  end.

(** The worker query that resolving the routing table costs, if any. *)
Definition resolve_events (self : Inspector) : list Event :=
  match route_queues self with
  | Some _ => []
  | None => [QueryActiveQueues (insp_app self)]
  end.

(** Number of tasks that the routing table [rt] attributes to queue [q]. *)
Definition tasks_on (rt : RouteTable) (tasks : list Task) (q : string) : nat :=
  length (filter (λ t, rt !! task_key t = Some q) tasks).

(** Any use of an inspector object, each in the world of its moment. *)
Inductive InspectorOp : Type :=
| OpGetRouteQueues (w : Workers)
| OpGetStatusTaskCounts (w : Workers) (status : string)
| OpGetItem (w : Workers) (status : string).

Definition run_op (op : InspectorOp) (self : Inspector) : Inspector * list Event :=
  match op with
  | OpGetRouteQueues w =>
      match get_route_queues w self with (_, self', tr) => (self', tr) end
  | OpGetStatusTaskCounts w status =>
      match get_status_task_counts w status self with (_, self', tr) => (self', tr) end
  | OpGetItem w status =>
      match inspector_getitem w status self with (_, self', tr) => (self', tr) end
  end.

Fixpoint run_ops (ops : list InspectorOp) (self : Inspector)
  : Inspector * list Event :=
  match ops with
  | [] => (self, [])
  | op :: ops' =>
      match run_op op self with
      | (self1, tr1) =>
          match run_ops ops' self1 with
          | (self2, tr2) => (self2, tr1 ++ tr2)
          end
      end
  end.

(** The example of the specification: one binding ('e', 'r') to queue 'q'
    and one active task delivered through ('e', 'r'). *)
Definition binding_e_r_q : QueueBinding :=
  {| qb_exchange := {| exchange_name := "e" |}; qb_routing_key := "r";
     qb_name := "q" |}.
Definition task_e_r : Task :=
  {| delivery_info := {| exchange := "e"; routing_key := "r" |} |}.
Definition one_task_world : World :=
  λ _, {| active_queues := [("worker1", [binding_e_r_q])];
          active := [("worker1", [task_e_r])];
          reserved := []; scheduled := [] |}.

(** A world whose routing table is stale: the active task was delivered
    through a pair no worker is bound to. *)
Definition stale_world : World :=
  λ _, {| active_queues := [];
          active := [("worker1", [task_e_r])];
          reserved := []; scheduled := [] |}.

(** Two workers binding the same (exchange, routing key) to different
    queues; the second worker's binding is iterated last. *)
Definition binding_e_r_q2 : QueueBinding :=
  {| qb_exchange := {| exchange_name := "e" |}; qb_routing_key := "r";
     qb_name := "q2" |}.
Definition two_worker_world : World :=
  λ _, {| active_queues := [("worker1", [binding_e_r_q]);
                            ("worker2", [binding_e_r_q2])];
          active := []; reserved := []; scheduled := [] |}.

(** ** Cache-level notions *)

(** What [get_status_task_counts] computes for [status], as a function of
    the inspector's routing table and of the workers' reply. *)
Definition computed_counts (w : World) (self : Inspector) (status : string)
  : Result Counter :=
  if bool_decide (status ∈ valid_statuses) then
    match map_get_queue (effective_routes w self)
            (status_tasks w (insp_app self) status) with
    | Ok queues => Ok (Counter_of queues)
    | Raise e => Raise e
    end
  else Raise (KeyError ["Invalid task status: " +:+ status]).

(** What [inspector[status]] yields: the memoized tally, or else the
    computed one. *)
Definition status_task_counts (w : World) (self : Inspector) (status : string)
  : Result Counter :=
  match insp_items self !! status with
  | Some c => Ok c
  | None => computed_counts w self status
  end.

(** The registry held by a cache (empty when the cache has none yet) and
    the inspector a proc with handle [a] works on: the registered one, or
    else a new one. *)
Definition registry_of (cache : Cache) : Registry :=
  default ∅ (cache !! "celery_inspect").
Definition cache_inspector (cache : Cache) (a : AppHandle) : Inspector :=
  default (CeleryInspector a) (registry_of cache !! a).

(** The body of [inspect_count] seen from the one inspector it uses. *)
Definition inspector_sum (w : Workers) (pairs : list (string * string)) (acc : Z)
  : M Inspector Z :=
  sum_gen (λ sq, do counts <- inspector_getitem w sq.1;
                 ret (counter_get counts sq.2)) pairs acc.

(** The application an event concerns. *)
Definition event_app (e : Event) : AppHandle :=
  match e with
  | NewInspector a => a
  | QueryActiveQueues a => a
  | QueryStatus a _ => a
  end.

(** Memoization state of an inspector, as 0 or 1. *)
Definition has_routes (self : Inspector) : nat :=
  match route_queues self with Some _ => 1%nat | None => 0%nat end.
Definition has_status (self : Inspector) (status : string) : nat :=
  match insp_items self !! status with Some _ => 1%nat | None => 0%nat end.
Definition raised {A} (r : Result A) : nat :=
  match r with Ok _ => 0%nat | Raise _ => 1%nat end.

(** [insp_delta self self' tr k], for workers that answer every query:
    running from [self] to [self'] with
    events [tr] stayed on the same application, built no inspector, asked
    for the bindings exactly when the routing table became resolved, and
    asked for a status at most when its tally became memoized, up to [k]
    further status queries. *)
Definition insp_delta (self self' : Inspector) (tr : list Event) (k : nat) : Prop :=
  insp_app self' = insp_app self
  ∧ (∀ e, e ∈ tr -> event_app e = insp_app self)
  ∧ (∀ a, count_event (NewInspector a) tr = 0%nat)
  ∧ (count_event (QueryActiveQueues (insp_app self)) tr + has_routes self
     = has_routes self')%nat
  ∧ ∀ s, (has_status self s <= has_status self' s)%nat
         ∧ (count_event (QueryStatus (insp_app self) s) tr + has_status self s
            <= has_status self' s + k)%nat.

(** The construction event of a registry access, if the key is new. *)
Definition new_events (reg : Registry) (a : AppHandle) : list Event :=
  match reg !! a with
  | Some _ => []
  | None => [NewInspector a]
  end.

(** A proc inspecting 'active' and 'reserved' tasks on queues 'q' and 'x'
    over a channel on which every passive declare fails. *)
Definition inspecting_proc : CeleryProc :=
  {| name := "worker"; queues := ["q"; "x"]; app := 0%nat;
     inspect_statuses := ["active"; "reserved"]; channel := missing_x_channel |}.
Definition one_task_tallies (status : string) : Counter :=
  if decide (status = "active") then {[ "q" := 1 ]} else ∅.

(** Two procs that differ only in the kind of channel: both brokers hold 3
    messages on queue 'q', both procs inspect 'active' tasks. *)
Definition size3_channel : Channel :=
  {| _size := Some (λ _, Ok 3); queue_declare := λ _, Ok 3 |}.
Definition declare3_channel : Channel :=
  {| _size := None; queue_declare := λ _, Ok 3 |}.
Definition redis_inspecting_proc : CeleryProc :=
  {| name := "worker"; queues := ["q"]; app := 0%nat;
     inspect_statuses := ["active"]; channel := size3_channel |}.
Definition amqp_inspecting_proc : CeleryProc :=
  {| name := "worker"; queues := ["q"]; app := 0%nat;
     inspect_statuses := ["active"]; channel := declare3_channel |}.

(** ** Sequences of calls against one cache *)

(** A call of [inspect_count] by a proc, with the workers as they are at
    its moment. *)
Definition Call : Type := Workers * CeleryProc.

(** Run the calls in order on the same cache object; a call that raises
    does not end the cache's life. The results are labelled with the
    application handle of the calling proc. *)
Fixpoint run_calls (calls : list Call) (cache : Cache)
  : list (AppHandle * Result Z) * Cache * list Event :=
  match calls with
  | [] => ([], cache, [])
  | (w, self) :: rest =>
      match inspect_count w self cache with
      | (r, cache1, tr1) =>
          match run_calls rest cache1 with
          | (rs, cache2, tr2) => ((app self, r) :: rs, cache2, tr1 ++ tr2)
          end
      end
  end.

(** Number of calls that raised, among those of the procs with application
    handle [a]. *)
Definition raised_calls_of (a : AppHandle) (rs : list (AppHandle * Result Z)) : nat :=
  foldr (λ ar n, ((if decide (ar.1 = a) then raised ar.2 else 0) + n)%nat) 0%nat rs.

(** Every registered inspector is registered under its own application. *)
Definition registry_wf (cache : Cache) : Prop :=
  ∀ a i, registry_of cache !! a = Some i -> insp_app i = a.

(** Memoization state of a cache, as 0 or 1. *)
Definition cache_has_insp (cache : Cache) (a : AppHandle) : nat :=
  match registry_of cache !! a with Some _ => 1%nat | None => 0%nat end.
Definition cache_has_routes (cache : Cache) (a : AppHandle) : nat :=
  match registry_of cache !! a with Some i => has_routes i | None => 0%nat end.
Definition cache_has_status (cache : Cache) (a : AppHandle) (s : string) : nat :=
  match registry_of cache !! a with Some i => has_status i s | None => 0%nat end.

(** [insp_bound self self' tr k]: running from [self] to [self'] with
    events [tr] stayed on the same application and built no inspector; the
    bindings were asked for at most when the routing table became resolved,
    and a status at most when its tally became memoized, each up to [k]
    further queries. *)
Definition insp_bound (self self' : Inspector) (tr : list Event) (k : nat) : Prop :=
  insp_app self' = insp_app self
  ∧ (∀ e, e ∈ tr -> event_app e = insp_app self)
  ∧ (∀ a, count_event (NewInspector a) tr = 0%nat)
  ∧ ((has_routes self <= has_routes self')%nat
     ∧ (count_event (QueryActiveQueues (insp_app self)) tr + has_routes self
        <= has_routes self' + k)%nat)
  ∧ ∀ s, (has_status self s <= has_status self' s)%nat
         ∧ (count_event (QueryStatus (insp_app self) s) tr + has_status self s
            <= has_status self' s + k)%nat.

(** [cache_bound c c' tr k]: from [c] to [c'] with events [tr], inspectors
    were built exactly as the cache gained them; for each application [a]
    the bindings were asked for at most when its routing table became
    resolved and a status at most when its tally became memoized, each up
    to [k a] further queries. *)
Definition cache_bound (c c' : Cache) (tr : list Event) (k : AppHandle -> nat)
  : Prop :=
  (∀ a, (count_event (NewInspector a) tr + cache_has_insp c a
         = cache_has_insp c' a)%nat)
  ∧ (∀ a, (cache_has_routes c a <= cache_has_routes c' a)%nat
          ∧ (count_event (QueryActiveQueues a) tr + cache_has_routes c a
             <= cache_has_routes c' a + k a)%nat)
  ∧ ∀ a s, (cache_has_status c a s <= cache_has_status c' a s)%nat
           ∧ (count_event (QueryStatus a s) tr + cache_has_status c a s
              <= cache_has_status c' a s + k a)%nat.

(** Workers that cannot be reached for their bindings, and workers whose
    bindings are known but who cannot be reached for their active tasks. *)
Definition unreachable_workers : Workers :=
  {| answers := one_task_world;
     trouble := λ _ query, if decide (query = "active_queues")
                           then Some (OtherError "workers unreachable") else None |}.
Definition silent_workers : Workers :=
  {| answers := one_task_world;
     trouble := λ _ query, if decide (query = "active")
                           then Some (AttributeError "values") else None |}.

(** A proc whose one queue is inspected for 'active' tasks. *)
Definition active_q_proc : CeleryProc :=
  {| name := "worker"; queues := ["q"]; app := 0%nat;
     inspect_statuses := ["active"]; channel := missing_x_channel |}.

(** ** Notions for the further properties *)

(** Whether the routing table attributes task [t] to one of the queues
    [qs]. *)
Definition task_in_queues (rt : RouteTable) (qs : list string) (t : Task) : Prop :=
  match rt !! task_key t with
  | Some q => q ∈ qs
  | None => False
  end.

Global Instance task_in_queues_dec rt qs t : Decision (task_in_queues rt qs t).
Proof. unfold task_in_queues. destruct (rt !! task_key t); apply _. Defined.

(** Bindings are consistent when those carrying the same (exchange name,
    routing key) all name the same queue, as when several workers consume
    the same queues. *)
Definition consistent_bindings (bs : list QueueBinding) : Prop :=
  ∀ b1 b2, b1 ∈ bs -> b2 ∈ bs ->
           binding_key b1 = binding_key b2 -> qb_name b1 = qb_name b2.

(** Every memoized tally holds only counts of at least 1. *)
Definition tallies_positive (self : Inspector) : Prop :=
  ∀ s c q n, insp_items self !! s = Some c -> c !! q = Some n -> 1 <= n.
Definition cache_tallies_positive (cache : Cache) : Prop :=
  ∀ a i, registry_of cache !! a = Some i -> tallies_positive i.

(** ** Further example inputs *)

(** A channel whose size query fails on queue 'y', and one whose passive
    declare fails on 'y' with something else than a channel error. *)
Definition failing_size_channel : Channel :=
  {| _size := Some (λ q, if decide (q = "y") then Raise (OtherError "connection lost")
                         else Ok 2);
     queue_declare := λ _, Raise (OtherError "not used") |}.
Definition failing_size_proc : CeleryProc :=
  {| name := "worker"; queues := ["x"; "y"]; app := 0%nat;
     inspect_statuses := ["active"]; channel := failing_size_channel |}.
Definition broken_declare_channel : Channel :=
  {| _size := None;
     queue_declare := λ q, if decide (q = "y") then Raise (OtherError "connection lost")
                           else Raise ChannelError |}.
Definition broken_declare_proc : CeleryProc :=
  {| name := "worker"; queues := ["x"; "y"]; app := 0%nat;
     inspect_statuses := ["active"]; channel := broken_declare_channel |}.

(** The cache left by a first call of [amqp_inspecting_proc], and the
    inspector it holds. *)
Definition warm_cache : Cache :=
  (inspect_count one_task_world amqp_inspecting_proc ∅).1.2.
Definition warm_inspector : Inspector := cache_inspector warm_cache 0%nat.

(** Two workers, each bound to its own queue and holding one active task;
    and the same workers answering in the other order. *)
Definition binding_f_r_p : QueueBinding :=
  {| qb_exchange := {| exchange_name := "f" |}; qb_routing_key := "r";
     qb_name := "p" |}.
Definition task_f_r : Task :=
  {| delivery_info := {| exchange := "f"; routing_key := "r" |} |}.
Definition two_task_world : World :=
  λ _, {| active_queues := [("worker1", [binding_e_r_q]); ("worker2", [binding_f_r_p])];
          active := [("worker1", [task_e_r]); ("worker2", [task_f_r])];
          reserved := []; scheduled := [] |}.
Definition two_task_world_swapped : World :=
  λ _, {| active_queues := [("worker2", [binding_f_r_p]); ("worker1", [binding_e_r_q])];
          active := [("worker2", [task_f_r]); ("worker1", [task_e_r])];
          reserved := []; scheduled := [] |}.

(** A proc that lists 'active' twice, watching queue 'q' but not 'p'. *)
Definition twice_active_proc : CeleryProc :=
  {| name := "worker"; queues := ["q"; "x"]; app := 0%nat;
     inspect_statuses := ["active"; "reserved"; "active"];
     channel := missing_x_channel |}.

(** A cache shared by two applications: it holds the inspector that a call
    of a proc of application 1 left, and an entry of its caller under
    another key. *)
Definition app1_proc : CeleryProc :=
  {| name := "other"; queues := ["q"]; app := 1%nat;
     inspect_statuses := ["active"]; channel := missing_x_channel |}.
Definition shared_cache : Cache :=
  <["other_entry" := ∅]> (inspect_count one_task_world app1_proc ∅).1.2.

(** * Properties *)

(** ** The monad and [sum_gen] *)

Lemma bind_ok {S A B} (m : M S A) (k : A -> M S B) s a s1 tr1 :
  m s = (Ok a, s1, tr1) ->
  bind m k s = ((k a s1).1.1, (k a s1).1.2, tr1 ++ (k a s1).2).
Proof. unfold bind. intros ->. by destruct (k a s1) as [[r s2] tr2]. Qed.

Lemma bind_raise {S A B} (m : M S A) (k : A -> M S B) s e s1 tr1 :
  m s = (Raise e, s1, tr1) -> bind m k s = (Raise e, s1, tr1).
Proof. unfold bind. by intros ->. Qed.

Lemma sum_gen_pure {S A} (f : A -> Result Z) (n : A -> Z) (xs : list A) acc (s : S) :
  (∀ x, x ∈ xs -> f x = Ok (n x)) ->
  sum_gen (λ x, lift_result (f x)) xs acc s = (Ok (acc + Zsum (map n xs)), s, []).
Proof.
  revert acc. induction xs as [|x xs IH]; intros acc Hf; simpl.
  - unfold ret. by rewrite Z.add_0_r.
  - erewrite bind_ok; last by (unfold lift_result; rewrite (Hf x); [|left]).
    rewrite IH; last by (intros y Hy; apply Hf; right).
    simpl. do 3 f_equal. lia.
Qed.

(** ** The passive-declare loop *)

Lemma declare_loop_sum (ch : Channel) (qs : list string) (count : Z) :
  (∀ q, q ∈ qs ->
        queue_declare ch q = Raise ChannelError ∨ is_ok (queue_declare ch q) = true) ->
  declare_loop ch qs count = Ok (count + Zsum (map (declare_contribution ch) qs)).
Proof.
  revert count. induction qs as [|q qs IH]; intros count Hq; simpl.
  - by rewrite Z.add_0_r.
  - assert (Hrest : ∀ q', q' ∈ qs ->
        queue_declare ch q' = Raise ChannelError ∨ is_ok (queue_declare ch q') = true)
      by (intros q' Hq'; apply Hq; by right).
    unfold declare_contribution at 1.
    destruct (Hq q ltac:(by left)) as [Herr | Hok].
    + rewrite Herr, IH by done. f_equal; lia.
    + destruct (queue_declare ch q) as [m | e]; [|done].
      rewrite IH by done. f_equal; lia.
Qed.

(** ** Claims about [quantity] on the broker paths *)

(** C2. On the direct-size path, with the channel reporting size [n q] for
    every queue [q] of the proc, [quantity] returns exactly the sum of the
    [n q] over the proc's queues (whatever cache is passed, which is left
    untouched, and with no worker query). *)
Theorem quantity_direct_size_sum (w : World) (self : CeleryProc)
    (cache : option Cache) (size : string -> Result Z) (n : string -> Z) :
  _size (channel self) = Some size ->
  (∀ q, q ∈ queues self -> size q = Ok (n q)) ->
  quantity w self cache = (Ok (Zsum (map n (queues self))), cache, []).
Proof.
  intros Hsize Hn. unfold quantity. rewrite Hsize.
  by rewrite (sum_gen_pure size n).
Qed.

(** C3. On the passive-declare path, when each declare either succeeds or
    fails with a channel error, [quantity] (without inspection) raises
    nothing and returns the sum in which a failed queue counts 0 and every
    other queue counts its message count; in particular over ['x','y'] with
    'x' missing and 'y' holding 5 messages it returns 5. *)
Theorem quantity_passive_declare_missing_queue (w : World) (self : CeleryProc)
    (cache : option Cache) :
  _size (channel self) = None ->
  cache = None ∨ inspect_statuses self = [] ->
  (∀ q, q ∈ queues self ->
        queue_declare (channel self) q = Raise ChannelError
        ∨ is_ok (queue_declare (channel self) q) = true) ->
  quantity w self cache
    = (Ok (Zsum (map (declare_contribution (channel self)) (queues self))), cache, [])
  ∧ (queues self = ["x"; "y"] ->
     queue_declare (channel self) "x" = Raise ChannelError ->
     queue_declare (channel self) "y" = Ok 5 ->
     quantity w self cache = (Ok 5, cache, [])).
Proof.
  intros Hsize Hcache Hq.
  assert (Hquant : quantity w self cache
    = (Ok (Zsum (map (declare_contribution (channel self)) (queues self))), cache, [])).
  { unfold quantity. rewrite Hsize.
    erewrite bind_ok; last by (unfold lift_result; rewrite declare_loop_sum by done).
    destruct Hcache as [-> | Hst]; simpl; [done|].
    destruct cache as [c|]; [|done].
    rewrite Hst. by rewrite bool_decide_eq_false_2 by (intros Hne; by apply Hne). }
  split; [done|].
  intros Hqs Hx Hy. rewrite Hquant, Hqs. simpl.
  unfold declare_contribution. by rewrite Hx, Hy.
Qed.

Lemma quantity_direct_size_sum_witness :
  quantity idle_world redis_proc None = (Ok 7, None, []).
Proof.
  rewrite (quantity_direct_size_sum idle_world redis_proc None
             (λ q, if decide (q = "y") then Ok 5 else Ok 2)
             (λ q, if decide (q = "y") then 5 else 2)).
  - reflexivity.
  - reflexivity.
  - intros q _. by destruct (decide (q = "y")).
Defined.

Lemma quantity_passive_declare_missing_queue_witness :
  quantity idle_world xy_proc None = (Ok 5, None, []).
Proof.
  refine (proj2 (quantity_passive_declare_missing_queue idle_world xy_proc None
                   _ _ _) _ _ _).
  - reflexivity.
  - by left.
  - intros q _. simpl. destruct (decide (q = "y")); [by right | by left].
  - reflexivity.
  - reflexivity.
  - reflexivity.
Defined.

Lemma gen_pairs_nil_r (statuses : list string) : gen_pairs statuses [] = [].
Proof. unfold gen_pairs. induction statuses as [|st sts IH]; [done|exact IH]. Qed.

Lemma inspect_count_no_queues (w : World) (self : CeleryProc) (c : Cache) :
  queues self = [] -> ∃ c', inspect_count w self c = (Ok 0, c', []).
Proof.
  intros Hq. unfold inspect_count. rewrite Hq, gen_pairs_nil_r.
  unfold bind, setdefault; simpl.
  destruct (c !! "celery_inspect"); eauto.
Qed.

(** C9. With an empty list of queues [quantity] returns 0 on both broker
    paths, whatever the cache and whatever statuses are configured, and
    without any worker query. *)
Theorem quantity_no_queues (w : World) (self : CeleryProc) (cache : option Cache) :
  queues self = [] ->
  (quantity w self cache).1.1 = Ok 0 ∧ (quantity w self cache).2 = [].
Proof.
  intros Hq. unfold quantity. rewrite Hq.
  destruct (_size (channel self)) as [size|]; [done|].
  simpl. unfold bind, lift_result.
  destruct cache as [c|]; [|done].
  case_bool_decide; [|done].
  destruct (inspect_count_no_queues w self c Hq) as [c' ->]. done.
Qed.

Lemma quantity_no_queues_witness :
  (quantity one_task_world
     {| name := "worker"; queues := []; app := 0%nat;
        inspect_statuses := ["active"]; channel := missing_x_channel |}
     (Some ∅)).1.1 = Ok 0.
Proof. apply quantity_no_queues. reflexivity. Defined.

(** ** [Counter] and the routing table *)

Lemma counter_add_lookup (c : Counter) (q q' : string) :
  counter_add c q !! q'
  = if decide (q = q') then Some (counter_get c q + 1) else c !! q'.
Proof. unfold counter_add. by rewrite lookup_insert. Qed.

(** A counter filled from [qs] holds, for each key occurring in [qs], the
    previous count plus the number of occurrences; other keys are as
    before. *)
Lemma fold_counter_add_lookup (qs : list string) (c : Counter) (q : string) :
  fold_left counter_add qs c !! q
  = match length (filter (λ x, x = q) qs) with
    | O => c !! q
    | S n => Some (counter_get c q + Z.of_nat (S n))
    end.
Proof.
  induction qs as [|x qs IH] using rev_ind; [done|].
  rewrite fold_left_app, filter_app, length_app. simpl.
  rewrite counter_add_lookup, filter_cons, filter_nil.
  destruct (decide (x = q)) as [->|Hne]; simpl.
  - unfold counter_get at 1. rewrite IH.
    destruct (length (filter (λ x, x = q) qs)) as [|n]; simpl.
    + f_equal; unfold counter_get; lia.
    + f_equal; lia.
  - by rewrite Nat.add_0_r, IH.
Qed.

Lemma Counter_of_lookup (qs : list string) (q : string) :
  Counter_of qs !! q
  = match length (filter (λ x, x = q) qs) with
    | O => None
    | S n => Some (Z.of_nat (S n))
    end.
Proof.
  unfold Counter_of. rewrite fold_counter_add_lookup.
  destruct (length _); [apply lookup_empty|].
  unfold counter_get. by rewrite lookup_empty.
Qed.

Lemma Counter_of_get (qs : list string) (q : string) :
  counter_get (Counter_of qs) q = Z.of_nat (length (filter (λ x, x = q) qs)).
Proof.
  unfold counter_get. rewrite Counter_of_lookup. by destruct (length _).
Qed.

(** Last write wins: a key maps to the name of the last binding carrying
    it, or stays as it was when no binding carries it. *)
Lemma fold_route_entry_lookup (bs : list QueueBinding) (rt : RouteTable)
    (key : string * string) :
  fold_left route_entry bs rt !! key
  = match last (filter (λ b, binding_key b = key) bs) with
    | Some b => Some (qb_name b)
    | None => rt !! key
    end.
Proof.
  induction bs as [|b bs IH] using rev_ind; [done|].
  rewrite fold_left_app, filter_app, last_app. simpl.
  unfold route_entry at 1. rewrite lookup_insert, filter_cons, filter_nil.
  fold (binding_key b).
  destruct (decide (binding_key b = key)); simpl; [done|exact IH].
Qed.

Lemma build_route_queues_lookup (bs : list QueueBinding) (key : string * string) :
  build_route_queues bs !! key
  = qb_name <$> last (filter (λ b, binding_key b = key) bs).
Proof.
  unfold build_route_queues. rewrite fold_route_entry_lookup.
  destruct (last _); [done|apply lookup_empty].
Qed.

(** ** Resolving tasks to queues *)

Lemma map_get_queue_ok (rt : RouteTable) (tasks : list Task) :
  (∀ t, t ∈ tasks -> is_Some (rt !! task_key t)) ->
  map_get_queue rt tasks = Ok (omap (λ t, rt !! task_key t) tasks).
Proof.
  induction tasks as [|t ts IH]; intros Hres; [done|].
  simpl. unfold get_queue. fold (task_key t).
  destruct (Hres t ltac:(by left)) as [q Hq]. rewrite Hq.
  rewrite IH by (intros t' Ht'; apply Hres; by right). done.
Qed.

Lemma map_get_queue_miss (rt : RouteTable) (tasks : list Task) :
  (∃ t, t ∈ tasks ∧ rt !! task_key t = None) ->
  ∃ t, t ∈ tasks ∧ rt !! task_key t = None
       ∧ map_get_queue rt tasks
         = Raise (KeyError [exchange (delivery_info t); routing_key (delivery_info t)]).
Proof.
  induction tasks as [|t ts IH]; intros (t0 & Hin & Hnone).
  - by apply elem_of_nil in Hin.
  - simpl. unfold get_queue. fold (task_key t).
    destruct (rt !! task_key t) as [q|] eqn:Hq.
    + apply elem_of_cons in Hin as [-> | Hin]; [congruence|].
      destruct IH as (t1 & Hin1 & Hnone1 & ->); [by eauto|].
      exists t1. split; [by right | done].
    + exists t. split; [by left | done].
Qed.

Lemma omap_resolved_count (rt : RouteTable) (tasks : list Task) (q : string) :
  length (filter (λ x, x = q) (omap (λ t, rt !! task_key t) tasks))
  = tasks_on rt tasks q.
Proof.
  unfold tasks_on. induction tasks as [|t ts IH]; [done|].
  cbn [omap list_omap]. rewrite (filter_cons _ t).
  destruct (rt !! task_key t) as [q'|] eqn:Hq.
  - rewrite filter_cons.
    destruct (decide (q' = q)) as [->|Hne].
    + rewrite decide_True by done. cbn [length]. by rewrite IH.
    + rewrite decide_False by congruence. exact IH.
  - rewrite decide_False by done. exact IH.
Qed.

(** ** [CeleryInspector] *)

Lemma set_route_queues_memo (self : Inspector) (r : RouteTable) :
  route_queues self = Some r -> set_route_queues r self = self.
Proof. destruct self as [a rq d]; simpl. by intros ->. Qed.

Lemma get_route_queues_eq (w : World) (self : Inspector) :
  get_route_queues w self
  = (Ok (effective_routes w self),
     set_route_queues (effective_routes w self) self,
     resolve_events self).
Proof.
  unfold get_route_queues, effective_routes, resolve_events.
  destruct (route_queues self) as [r|] eqn:Hr; [|done].
  by rewrite set_route_queues_memo.
Qed.

Lemma valid_status_cases (status : string) :
  status ∈ valid_statuses ->
  status = "active" ∨ status = "reserved" ∨ status = "scheduled".
Proof.
  unfold valid_statuses. rewrite !elem_of_cons, elem_of_nil. tauto.
Qed.

Lemma inspect_getattr_valid (c : Control) (status : string) :
  status ∈ valid_statuses -> is_Some (inspect_getattr c status).
Proof.
  intros Hv. destruct (valid_status_cases status Hv) as [-> | [-> | ->]];
    by eexists.
Qed.

(** What a call with a valid status does, in one equation. *)
Lemma get_status_task_counts_valid (w : World) (status : string) (self : Inspector) :
  status ∈ valid_statuses ->
  get_status_task_counts w status self
  = (match map_get_queue (effective_routes w self)
             (status_tasks w (insp_app self) status) with
     | Ok queues => Ok (Counter_of queues)
     | Raise e => Raise e
     end,
     set_route_queues (effective_routes w self) self,
     resolve_events self ++ [QueryStatus (insp_app self) status]).
Proof.
  intros Hv. unfold get_status_task_counts.
  rewrite bool_decide_eq_true_2 by done.
  erewrite bind_ok by apply get_route_queues_eq.
  unfold status_tasks. simpl.
  destruct (inspect_getattr_valid (w (insp_app self)) status Hv) as [rep ->].
  by destruct (map_get_queue _ _).
Qed.

Lemma get_status_task_counts_invalid_eq (w : World) (status : string)
    (self : Inspector) :
  status ∉ valid_statuses ->
  get_status_task_counts w status self
  = (Raise (KeyError ["Invalid task status: " +:+ status]), self, []).
Proof.
  intros Hv. unfold get_status_task_counts.
  by rewrite bool_decide_eq_false_2 by done.
Qed.

(** C6. For a status outside {active, reserved, scheduled},
    [get_status_task_counts] raises a key error, issues no worker query
    (no event at all) and returns the inspector exactly as it was: neither
    the per-status table nor the routing table changes. The same holds when
    the status is requested through the inspector's item access. *)
Theorem get_status_task_counts_invalid_status (w : World) (status : string)
    (self : Inspector) :
  status ∉ valid_statuses ->
  (∃ args, get_status_task_counts w status self = (Raise (KeyError args), self, []))
  ∧ (insp_items self !! status = None ->
     ∃ args, inspector_getitem w status self = (Raise (KeyError args), self, [])).
Proof.
  intros Hv. split.
  - eexists. by apply get_status_task_counts_invalid_eq.
  - intros Hnone. eexists. unfold inspector_getitem, kdd_getitem.
    rewrite Hnone. by erewrite bind_raise by by apply get_status_task_counts_invalid_eq.
Qed.

Lemma get_status_task_counts_invalid_status_witness :
  ∃ args, get_status_task_counts one_task_world "bogus" (CeleryInspector 0%nat)
          = (Raise (KeyError args), CeleryInspector 0%nat, []).
Proof.
  refine (proj1 (get_status_task_counts_invalid_status one_task_world "bogus"
                   (CeleryInspector 0%nat) _)).
  unfold valid_statuses. rewrite !elem_of_cons, elem_of_nil.
  intros [H | [H | [H | []]]]; discriminate H.
Defined.

(** C7. For a valid status, with [rt] the inspector's routing table and
    [tasks] the flattened worker reply: if every task's (exchange, routing
    key) is in [rt], the call returns the tally that gives every queue the
    number of tasks resolved to it; if some task's pair is absent, the call
    raises a key error after the one status query, with the routing table
    left as resolved (no second resolution, no fallback); and with the single
    binding ('e','r') to 'q' and one active task delivered through
    ('e','r') the result for 'active' is {'q': 1}. *)
Theorem get_status_task_counts_tally (w : World) (status : string)
    (self : Inspector) :
  status ∈ valid_statuses ->
  let rt := effective_routes w self in
  let tasks := status_tasks w (insp_app self) status in
  ((∀ t, t ∈ tasks -> is_Some (rt !! task_key t)) ->
   ∃ c, get_status_task_counts w status self
        = (Ok c, set_route_queues rt self,
           resolve_events self ++ [QueryStatus (insp_app self) status])
        ∧ ∀ q, counter_get c q = Z.of_nat (tasks_on rt tasks q))
  ∧ ((∃ t, t ∈ tasks ∧ rt !! task_key t = None) ->
     ∃ args, get_status_task_counts w status self
             = (Raise (KeyError args), set_route_queues rt self,
                resolve_events self ++ [QueryStatus (insp_app self) status]))
  ∧ (status = "active" -> route_queues self = None ->
     worker_bindings w (insp_app self) = [binding_e_r_q] ->
     tasks = [task_e_r] ->
     (get_status_task_counts w status self).1.1 = Ok {[ "q" := 1 ]}).
Proof.
  intros Hv rt tasks. rewrite get_status_task_counts_valid by done.
  fold rt tasks. split; [|split].
  - intros Hres. rewrite map_get_queue_ok by done.
    eexists. split; [done|].
    intros q. by rewrite Counter_of_get, omap_resolved_count.
  - intros Hmiss.
    destruct (map_get_queue_miss rt tasks Hmiss) as (t & _ & _ & ->).
    by eexists.
  - intros _ Hnone Hb Ht. simpl. rewrite Ht.
    unfold rt, effective_routes. rewrite Hnone, Hb. reflexivity.
Qed.

Lemma get_status_task_counts_tally_witness :
  (get_status_task_counts one_task_world "active" (CeleryInspector 0%nat)).1.1
  = Ok {[ "q" := 1 ]}.
Proof.
  refine (proj2 (proj2 (get_status_task_counts_tally one_task_world "active"
                          (CeleryInspector 0%nat) _)) _ _ _ _).
  - unfold valid_statuses. by left.
  - reflexivity.
  - reflexivity.
  - reflexivity.
  - reflexivity.
Defined.

Lemma map_get_queue_inv (rt : RouteTable) (tasks : list Task) (qs : list string) :
  map_get_queue rt tasks = Ok qs ->
  ∀ t, t ∈ tasks -> is_Some (rt !! task_key t).
Proof.
  revert qs. induction tasks as [|t ts IH]; intros qs Heq t' Hin.
  - by apply elem_of_nil in Hin.
  - simpl in Heq. unfold get_queue in Heq. fold (task_key t) in Heq.
    destruct (rt !! task_key t) as [q|] eqn:Hq; [|done].
    destruct (map_get_queue rt ts) as [qs'|] eqn:Hts; [|done].
    apply elem_of_cons in Hin as [-> | Hin]; [by eexists | by eapply IH].
Qed.

Lemma tasks_on_pos (rt : RouteTable) (tasks : list Task) (q : string) :
  (0 < tasks_on rt tasks q)%nat ↔ ∃ t, t ∈ tasks ∧ rt !! task_key t = Some q.
Proof.
  unfold tasks_on. split.
  - intros Hpos.
    destruct (filter (λ t, rt !! task_key t = Some q) tasks) as [|t l] eqn:Hf;
      [simpl in Hpos; lia|].
    assert (Hin : t ∈ filter (λ t, rt !! task_key t = Some q) tasks)
      by (rewrite Hf; by left).
    apply list_elem_of_filter in Hin as [Hq Hin]. eauto.
  - intros (t & Hin & Hq).
    assert (Hf : t ∈ filter (λ t, rt !! task_key t = Some q) tasks)
      by (by apply list_elem_of_filter).
    destruct (filter _ tasks); [by apply elem_of_nil in Hf | simpl; lia].
Qed.

(** C10. For a valid status the call returns a mapping whenever all tasks
    resolve, and in any mapping it returns every value is at least 1: a
    queue is a key exactly when at least one task of that status resolved
    to it. *)
Theorem get_status_task_counts_keys_positive (w : World) (status : string)
    (self : Inspector) :
  status ∈ valid_statuses ->
  let rt := effective_routes w self in
  let tasks := status_tasks w (insp_app self) status in
  ((∀ t, t ∈ tasks -> is_Some (rt !! task_key t)) ->
   is_ok (get_status_task_counts w status self).1.1 = true)
  ∧ ∀ c, (get_status_task_counts w status self).1.1 = Ok c ->
      (∀ q n, c !! q = Some n -> 1 <= n)
      ∧ (∀ q, is_Some (c !! q) ↔ ∃ t, t ∈ tasks ∧ rt !! task_key t = Some q).
Proof.
  intros Hv rt tasks. rewrite get_status_task_counts_valid by done.
  fold rt tasks. simpl. split.
  - intros Hres. by rewrite map_get_queue_ok.
  - intros c Hc.
    destruct (map_get_queue rt tasks) as [qs|e] eqn:Hqs; [|done].
    pose proof (map_get_queue_inv rt tasks qs Hqs) as Hres.
    rewrite map_get_queue_ok in Hqs by done.
    assert (Hlook : ∀ q, c !! q = match tasks_on rt tasks q with
                                  | O => None
                                  | S n => Some (Z.of_nat (S n))
                                  end).
    { intros q. injection Hc as <-. injection Hqs as <-.
      by rewrite Counter_of_lookup, omap_resolved_count. }
    split.
    + intros q n. rewrite Hlook. destruct (tasks_on rt tasks q); [done|].
      intros [= <-]. lia.
    + intros q. rewrite <- tasks_on_pos, Hlook.
      destruct (tasks_on rt tasks q); split; intros Hx;
        [by destruct Hx | lia | lia | by eexists].
Qed.

Lemma get_status_task_counts_keys_positive_witness :
  is_ok (get_status_task_counts one_task_world "active" (CeleryInspector 0%nat)).1.1
  = true.
Proof.
  refine (proj1 (get_status_task_counts_keys_positive one_task_world "active"
                   (CeleryInspector 0%nat) _) _).
  - unfold valid_statuses. by left.
  - intros t Ht. apply list_elem_of_singleton in Ht as ->. by eexists.
Defined.

(** Once resolved, the routing table survives every later use of the
    inspector, and no later use asks the workers for it again. *)
Lemma get_status_task_counts_resolved (ws : Workers) (status : string)
    (self : Inspector) (rt : RouteTable) :
  route_queues self = Some rt ->
  (get_status_task_counts ws status self).1.2 = self
  ∧ ∀ a, QueryActiveQueues a ∉ (get_status_task_counts ws status self).2.
Proof.
  intros Hrt. unfold get_status_task_counts.
  case_bool_decide; cycle 1.
  { simpl. split; [done|]. intros a Ha. by apply elem_of_nil in Ha. }
  unfold bind, get_route_queues. rewrite Hrt.
  destruct (inspect_getattr _ status) as [inspected|]; cycle 1.
  { simpl. split; [done|]. intros a Ha. by apply elem_of_nil in Ha. }
  destruct (trouble ws (insp_app self) status) as [e|];
    [|destruct (map_get_queue rt _) as [qs|e]];
    simpl; (split; [done|]); intros a Ha;
    apply list_elem_of_singleton in Ha; discriminate Ha.
Qed.

Lemma run_op_keeps_routes (op : InspectorOp) (self : Inspector) (rt : RouteTable) :
  route_queues self = Some rt ->
  route_queues (run_op op self).1 = Some rt
  ∧ insp_app (run_op op self).1 = insp_app self
  ∧ ∀ a, QueryActiveQueues a ∉ (run_op op self).2.
Proof.
  intros Hrt.
  pose proof (λ ws status, get_status_task_counts_resolved ws status self rt Hrt)
    as Hstatus.
  destruct op as [w | w status | w status]; simpl.
  - unfold get_route_queues. rewrite Hrt. simpl.
    split_and!; [done..|]. intros a Ha. by apply elem_of_nil in Ha.
  - destruct (Hstatus w status) as [Hself Hno].
    destruct (get_status_task_counts w status self) as [[r s'] tr].
    simpl in *. by subst s'.
  - unfold inspector_getitem, kdd_getitem.
    destruct (insp_items self !! status) as [c|]; simpl.
    { split_and!; [done..|]. intros a Ha. by apply elem_of_nil in Ha. }
    unfold bind. destruct (Hstatus w status) as [Hself Hno].
    destruct (get_status_task_counts w status self) as [[[c|e] s'] tr];
      simpl in *; subst s'; [|done].
    split_and!; [done..|].
    intros a. rewrite app_nil_r. apply Hno.
Qed.

Lemma run_ops_keeps_routes (ops : list InspectorOp) (self : Inspector)
    (rt : RouteTable) :
  route_queues self = Some rt ->
  route_queues (run_ops ops self).1 = Some rt
  ∧ insp_app (run_ops ops self).1 = insp_app self
  ∧ ∀ a, QueryActiveQueues a ∉ (run_ops ops self).2.
Proof.
  revert self. induction ops as [|op ops IH]; intros self Hrt; simpl.
  - split_and!; [done..|]. intros a Ha. by apply elem_of_nil in Ha.
  - destruct (run_op_keeps_routes op self rt Hrt) as (Hrt1 & Happ1 & Hno1).
    destruct (run_op op self) as [self1 tr1]. simpl in *.
    destruct (IH self1 Hrt1) as (Hrt2 & Happ2 & Hno2).
    destruct (run_ops ops self1) as [self2 tr2]. simpl in *.
    split_and!; [done | congruence |].
    intros a Ha. apply elem_of_app in Ha as [Ha|Ha]; [by eapply Hno1 | by eapply Hno2].
Qed.

(** C8. On an inspector whose routing table is not yet resolved,
    [get_route_queues] asks the workers once, and the table it returns and
    stores maps every (exchange name, routing key) to the queue name of the
    last binding carrying that pair in the flattened per-worker lists (none
    if no binding carries it). After that, whatever operations are run on
    the inspector and whatever the workers would answer by then, the stored
    table is still that table, the workers are never asked for bindings
    again, and [get_route_queues] returns it without any event. *)
Theorem get_route_queues_last_write_wins_memoized (w : World) (self : Inspector) :
  route_queues self = None ->
  let bindings := chain_from_iterable (values (active_queues (w (insp_app self)))) in
  ∃ rt,
    get_route_queues w self
    = (Ok rt, set_route_queues rt self, [QueryActiveQueues (insp_app self)])
    ∧ (∀ key, rt !! key
              = qb_name <$> last (filter (λ b, binding_key b = key) bindings))
    ∧ ∀ ops w',
        let after := run_ops ops (set_route_queues rt self) in
        route_queues after.1 = Some rt
        ∧ (∀ a, QueryActiveQueues a ∉ after.2)
        ∧ get_route_queues w' after.1 = (Ok rt, after.1, []).
Proof.
  intros Hnone bindings.
  exists (build_route_queues bindings). split_and!.
  - unfold get_route_queues. by rewrite Hnone.
  - intros key. apply build_route_queues_lookup.
  - intros ops w' after.
    destruct (run_ops_keeps_routes ops
                (set_route_queues (build_route_queues bindings) self)
                (build_route_queues bindings) eq_refl) as (Hrt & _ & Hno).
    fold after in Hrt, Hno. split_and!; [done..|].
    unfold get_route_queues. by rewrite Hrt.
Qed.

Lemma get_route_queues_last_write_wins_memoized_witness :
  ∃ rt, (get_route_queues two_worker_world (CeleryInspector 0%nat)).1.1 = Ok rt
        ∧ rt !! ("e", "r") = Some "q2".
Proof.
  destruct (get_route_queues_last_write_wins_memoized two_worker_world
              (CeleryInspector 0%nat) eq_refl) as (rt & Heq & Hlast & _).
  exists rt. split.
  - by rewrite Heq.
  - rewrite Hlast. reflexivity.
Defined.

(** ** Item access on one inspector *)

Lemma get_status_task_counts_eq (w : World) (status : string) (self : Inspector) :
  get_status_task_counts w status self
  = (computed_counts w self status,
     if bool_decide (status ∈ valid_statuses)
     then set_route_queues (effective_routes w self) self else self,
     if bool_decide (status ∈ valid_statuses)
     then resolve_events self ++ [QueryStatus (insp_app self) status] else []).
Proof.
  unfold computed_counts. case_bool_decide.
  - by apply get_status_task_counts_valid.
  - by apply get_status_task_counts_invalid_eq.
Qed.

Lemma inspector_getitem_hit (w : Workers) (status : string) (self : Inspector) c :
  insp_items self !! status = Some c ->
  inspector_getitem w status self = (Ok c, self, []).
Proof. intros Hc. unfold inspector_getitem, kdd_getitem. by rewrite Hc. Qed.

Lemma inspector_getitem_miss (w : Workers) (status : string) (self : Inspector) :
  insp_items self !! status = None ->
  inspector_getitem w status self
  = match get_status_task_counts w status self with
    | (Ok c, self', tr) =>
        (Ok c, set_insp_items (<[status := c]> (insp_items self')) self', tr)
    | (Raise e, self', tr) => (Raise e, self', tr)
    end.
Proof.
  intros Hc. unfold inspector_getitem, kdd_getitem, bind. rewrite Hc.
  destruct (get_status_task_counts w status self) as [[[c|e] s'] tr]; [|done].
  by rewrite app_nil_r.
Qed.

Lemma inspector_getitem_result (w : World) (status : string) (self : Inspector) :
  (inspector_getitem w status self).1.1 = status_task_counts w self status.
Proof.
  unfold status_task_counts.
  destruct (insp_items self !! status) as [c|] eqn:Hc.
  - by rewrite (inspector_getitem_hit _ _ _ c).
  - rewrite inspector_getitem_miss, get_status_task_counts_eq by done.
    by destruct (computed_counts w self status).
Qed.

(** An item access in world [w] changes nothing about what any item access
    in [w] yields: what it stores is what would be computed. *)
Lemma inspector_getitem_stable (w : World) (s s' : string) (self : Inspector) :
  status_task_counts w (inspector_getitem w s self).1.2 s'
  = status_task_counts w self s'.
Proof.
  destruct (insp_items self !! s) as [c|] eqn:Hc.
  { by rewrite (inspector_getitem_hit _ _ _ c). }
  rewrite inspector_getitem_miss, get_status_task_counts_eq by done.
  case_bool_decide as Hv.
  - assert (Hcomp : ∀ d x, computed_counts w
        (set_insp_items d (set_route_queues (effective_routes w self) self)) x
        = computed_counts w self x) by done.
    destruct (computed_counts w self s) as [c|e] eqn:Hcs; simpl.
    + unfold status_task_counts; simpl. rewrite lookup_insert.
      destruct (decide (s = s')) as [<-|Hne].
      * by rewrite Hc.
      * destruct (insp_items self !! s'); [done|].
        apply (Hcomp (<[s:=c]> (insp_items self))).
    + unfold status_task_counts; simpl.
      destruct (insp_items self !! s'); [done|].
      apply (Hcomp (insp_items self)).
  - unfold computed_counts at 1. by rewrite bool_decide_eq_false_2 by done.
Qed.

Lemma inspector_sum_cons (w : Workers) (s q : string) pairs acc (self : Inspector) :
  inspector_sum w ((s, q) :: pairs) acc self
  = match inspector_getitem w s self with
    | (Ok c, self1, tr1) =>
        match inspector_sum w pairs (acc + counter_get c q) self1 with
        | (r, self2, tr2) => (r, self2, tr1 ++ tr2)
        end
    | (Raise e, self1, tr1) => (Raise e, self1, tr1)
    end.
Proof.
  unfold inspector_sum. simpl. unfold bind at 1 2. simpl.
  destruct (inspector_getitem w s self) as [[[c|e] self1] tr1]; [|done].
  simpl. rewrite app_nil_r. done.
Qed.

(** If every status to visit yields a tally on this inspector, the loop
    returns the sum of the tallies' entries, absent entries counting 0. *)
Lemma inspector_sum_ok (w : World) (T : string -> Counter) pairs acc
    (self : Inspector) :
  (∀ sq, sq ∈ pairs -> status_task_counts w self sq.1 = Ok (T sq.1)) ->
  (inspector_sum w pairs acc self).1.1
  = Ok (acc + Zsum (map (λ sq, counter_get (T sq.1) sq.2) pairs)).
Proof.
  revert acc self. induction pairs as [|[s q] pairs IH]; intros acc self HT.
  - simpl. by rewrite Z.add_0_r.
  - rewrite inspector_sum_cons.
    pose proof (inspector_getitem_result w s self) as Hr.
    pose proof (HT (s, q) ltac:(by left)) as HTs. simpl in HTs.
    rewrite HTs in Hr.
    pose proof (λ s', inspector_getitem_stable w s s' self) as Hst.
    destruct (inspector_getitem w s self) as [[r self1] tr1].
    simpl in Hr, Hst. subst r.
    specialize (IH (acc + counter_get (T s) q) self1).
    destruct (inspector_sum w pairs _ self1) as [[r2 self2] tr2].
    simpl in *. rewrite IH.
    + f_equal; lia.
    + intros sq Hsq. rewrite Hst. apply HT. by right.
Qed.

(** ** Counting events *)

Lemma count_event_app (e : Event) (t1 t2 : list Event) :
  count_event e (t1 ++ t2) = (count_event e t1 + count_event e t2)%nat.
Proof. unfold count_event. by rewrite filter_app, length_app. Qed.

Lemma count_event_singleton (e x : Event) :
  count_event e [x] = if decide (x = e) then 1%nat else 0%nat.
Proof.
  unfold count_event. rewrite filter_cons, filter_nil. by destruct (decide _).
Qed.

Lemma count_event_other_app (e : Event) (tr : list Event) :
  (∀ x, x ∈ tr -> event_app x ≠ event_app e) -> count_event e tr = 0%nat.
Proof.
  intros Hne. unfold count_event. induction tr as [|x tr IH]; [done|].
  rewrite filter_cons.
  destruct (decide (x = e)) as [->|_].
  - by destruct (Hne e ltac:(by left)).
  - apply IH. intros y Hy. apply Hne. by right.
Qed.

Lemma insp_delta_refl (self : Inspector) (k : nat) : insp_delta self self [] k.
Proof.
  unfold insp_delta. split_and!; try done.
  - intros e He. by apply elem_of_nil in He.
  - intros s. split; [done|]. unfold count_event. simpl. lia.
Qed.

Lemma insp_delta_trans (i0 i1 i2 : Inspector) (t1 t2 : list Event) (k : nat) :
  insp_delta i0 i1 t1 0 -> insp_delta i1 i2 t2 k -> insp_delta i0 i2 (t1 ++ t2) k.
Proof.
  intros (Ha1 & He1 & Hn1 & Hr1 & Hs1) (Ha2 & He2 & Hn2 & Hr2 & Hs2).
  rewrite Ha1 in *. unfold insp_delta. split_and!.
  - done.
  - intros e He. apply elem_of_app in He as [He|He]; [by apply He1 | by apply He2].
  - intros a. rewrite count_event_app, Hn1, Hn2. done.
  - rewrite count_event_app. lia.
  - intros s. destruct (Hs1 s) as [Hm1 Hc1]. destruct (Hs2 s) as [Hm2 Hc2].
    rewrite count_event_app. lia.
Qed.

Lemma has_status_le_1 (self : Inspector) (s : string) : (has_status self s <= 1)%nat.
Proof. unfold has_status. destruct (_ !! _); lia. Qed.

Lemma has_routes_le_1 (self : Inspector) : (has_routes self <= 1)%nat.
Proof. unfold has_routes. destruct (route_queues self); lia. Qed.

(** One item access: the events it emits against the memoization it
    leaves behind. *)
Lemma inspector_getitem_delta (w : World) (s : string) (self : Inspector) :
  insp_delta self (inspector_getitem w s self).1.2 (inspector_getitem w s self).2
    (raised (inspector_getitem w s self).1.1).
Proof.
  destruct (insp_items self !! s) as [c|] eqn:Hc.
  { rewrite (inspector_getitem_hit _ _ _ c) by done. apply insp_delta_refl. }
  rewrite inspector_getitem_miss, get_status_task_counts_eq by done.
  case_bool_decide as Hv; cycle 1.
  { unfold computed_counts. rewrite bool_decide_eq_false_2 by done. simpl.
    apply insp_delta_refl. }
  assert (Hroutes :
    (count_event (QueryActiveQueues (insp_app self))
       (resolve_events self ++ [QueryStatus (insp_app self) s])
     + has_routes self = 1)%nat).
  { rewrite count_event_app, count_event_singleton.
    rewrite decide_False by done.
    unfold resolve_events, has_routes.
    destruct (route_queues self); [done|].
    rewrite count_event_singleton, decide_True by done. done. }
  assert (Hnew : ∀ a, count_event (NewInspector a)
       (resolve_events self ++ [QueryStatus (insp_app self) s]) = 0%nat).
  { intros a. rewrite count_event_app, count_event_singleton.
    rewrite decide_False by done.
    unfold resolve_events. destruct (route_queues self); [done|].
    rewrite count_event_singleton, decide_False by done. done. }
  assert (Happ : ∀ e, e ∈ resolve_events self ++ [QueryStatus (insp_app self) s] ->
                      event_app e = insp_app self).
  { intros e He. apply elem_of_app in He as [He|He].
    - unfold resolve_events in He. destruct (route_queues self).
      + by apply elem_of_nil in He.
      + by apply list_elem_of_singleton in He as ->.
    - by apply list_elem_of_singleton in He as ->. }
  assert (Hstat : ∀ s', count_event (QueryStatus (insp_app self) s')
       (resolve_events self ++ [QueryStatus (insp_app self) s])
       = if decide (s = s') then 1%nat else 0%nat).
  { intros s'. rewrite count_event_app, count_event_singleton.
    assert (count_event (QueryStatus (insp_app self) s') (resolve_events self)
            = 0%nat) as ->.
    { unfold resolve_events. destruct (route_queues self); [done|].
      by rewrite count_event_singleton, decide_False by done. }
    destruct (decide (s = s')) as [->|Hne].
    - by rewrite decide_True by done.
    - rewrite decide_False; [done|]. intros [= ?]. done. }
  destruct (computed_counts w self s) as [c|e]; simpl;
    (split_and!; [done | done | done | by rewrite Hroutes |]);
    intros s'; rewrite Hstat; unfold has_status; simpl.
  - rewrite lookup_insert.
    destruct (decide (s = s')) as [<-|Hne].
    + rewrite Hc. lia.
    + destruct (insp_items self !! s'); lia.
  - destruct (decide (s = s')) as [<-|Hne].
    + rewrite Hc. lia.
    + destruct (insp_items self !! s'); lia.
Qed.

Lemma inspector_sum_delta (w : World) pairs acc (self : Inspector) :
  insp_delta self (inspector_sum w pairs acc self).1.2
    (inspector_sum w pairs acc self).2
    (raised (inspector_sum w pairs acc self).1.1).
Proof.
  revert acc self. induction pairs as [|[s q] pairs IH]; intros acc self.
  - simpl. apply insp_delta_refl.
  - rewrite inspector_sum_cons.
    pose proof (inspector_getitem_delta w s self) as Hd.
    destruct (inspector_getitem w s self) as [[[c|e] self1] tr1]; simpl in Hd;
      [|done].
    specialize (IH (acc + counter_get c q) self1).
    destruct (inspector_sum w pairs _ self1) as [[r2 self2] tr2]. simpl in *.
    by eapply insp_delta_trans.
Qed.

(** ** From the cache to the one inspector a proc uses *)

Lemma registry_getitem_eq (a : AppHandle) (reg : Registry) :
  registry_getitem a reg
  = (Ok (default (CeleryInspector a) (reg !! a)),
     <[a := default (CeleryInspector a) (reg !! a)]> reg,
     new_events reg a).
Proof.
  unfold registry_getitem, kdd_getitem, new_events. simpl.
  destruct (reg !! a) as [i|] eqn:Hi; simpl.
  - by rewrite insert_id.
  - done.
Qed.

Lemma inspect_item_eq (w : Workers) (a : AppHandle) (s q : string)
    (cache : Cache) (reg : Registry) :
  cache !! "celery_inspect" = Some reg ->
  inspect_item w a s q cache
  = match inspector_getitem w s (default (CeleryInspector a) (reg !! a)) with
    | (r, i', tr) =>
        (match r with Ok c => Ok (counter_get c q) | Raise e => Raise e end,
         <["celery_inspect" := <[a := i']> reg]> cache,
         new_events reg a ++ tr)
    end.
Proof.
  intros Hreg. unfold inspect_item, at_key at 1. rewrite Hreg.
  unfold bind at 1. rewrite registry_getitem_eq.
  unfold bind, at_key. rewrite lookup_insert_eq.
  destruct (inspector_getitem w s _) as [[[c|e] i'] tr]; simpl;
    by rewrite insert_insert_eq, ?app_nil_r.
Qed.

Lemma sum_inspect_items (w : Workers) (a : AppHandle) p ps acc
    (cache : Cache) (reg : Registry) :
  cache !! "celery_inspect" = Some reg ->
  sum_gen (λ sq, inspect_item w a sq.1 sq.2) (p :: ps) acc cache
  = match inspector_sum w (p :: ps) acc (default (CeleryInspector a) (reg !! a)) with
    | (r, i', tr) =>
        (r, <["celery_inspect" := <[a := i']> reg]> cache, new_events reg a ++ tr)
    end.
Proof.
  revert p acc cache reg.
  induction ps as [|p' ps IH]; intros [s q] acc cache reg Hreg.
  - rewrite inspector_sum_cons. simpl. unfold bind.
    rewrite (inspect_item_eq w a s q cache reg Hreg). simpl.
    destruct (inspector_getitem w s _) as [[[c|e] i'] tr]; simpl; [|done].
    by rewrite !app_nil_r.
  - rewrite inspector_sum_cons.
    change (sum_gen (λ sq, inspect_item w a sq.1 sq.2) ((s, q) :: p' :: ps) acc)
      with (bind (inspect_item w a s q)
              (λ n, sum_gen (λ sq, inspect_item w a sq.1 sq.2) (p' :: ps) (acc + n))).
    unfold bind. rewrite (inspect_item_eq w a s q cache reg Hreg).
    destruct (inspector_getitem w s _) as [[[c|e] i1] tr1]; cbv beta iota; [|done].
    rewrite (IH p' (acc + counter_get c q) _ (<[a := i1]> reg))
      by apply lookup_insert_eq.
    rewrite lookup_insert_eq. simpl.
    destruct (inspector_sum w (p' :: ps) _ i1) as [[r2 i2] tr2].
    rewrite !insert_insert_eq. unfold new_events at 2.
    rewrite lookup_insert_eq. simpl. by rewrite app_assoc.
Qed.

Lemma inspect_count_eq (w : Workers) (self : CeleryProc) (cache : Cache) :
  inspect_count w self cache
  = match gen_pairs (inspect_statuses self) (queues self) with
    | [] => (Ok 0, <["celery_inspect" := registry_of cache]> cache, [])
    | pairs =>
        match inspector_sum w pairs 0 (cache_inspector cache (app self)) with
        | (r, i', tr) =>
            (r, <["celery_inspect" := <[app self := i']> (registry_of cache)]> cache,
             new_events (registry_of cache) (app self) ++ tr)
        end
    end.
Proof.
  unfold inspect_count, cache_inspector, registry_of.
  destruct (gen_pairs _ _) as [|p ps].
  - unfold bind, setdefault. simpl.
    destruct (cache !! "celery_inspect") as [reg|] eqn:Hreg; simpl; [|done].
    by rewrite insert_id.
  - unfold bind at 1, setdefault.
    destruct (cache !! "celery_inspect") as [reg|] eqn:Hreg;
      cbv beta iota; cbn [default from_option id].
    + rewrite (sum_inspect_items w (app self) p ps 0 cache reg Hreg).
      by destruct (inspector_sum w (p :: ps) 0 _) as [[r i'] tr].
    + rewrite (sum_inspect_items w (app self) p ps 0 _ ∅)
        by apply lookup_insert_eq.
      destruct (inspector_sum w (p :: ps) 0 _) as [[r i'] tr].
      by rewrite insert_insert_eq.
Qed.

(** ** Claims about [inspect_count] and the inspection part of [quantity] *)

Lemma Zsum_app (l1 l2 : list Z) : Zsum (l1 ++ l2) = Zsum l1 + Zsum l2.
Proof. unfold Zsum. induction l1 as [|x l1 IH]; simpl; [done|]. rewrite IH. lia. Qed.

Lemma Zsum_gen_pairs (f : string * string -> Z) (statuses queues : list string) :
  Zsum (map f (gen_pairs statuses queues))
  = Zsum (map (λ s, Zsum (map (λ q, f (s, q)) queues)) statuses).
Proof.
  unfold gen_pairs. induction statuses as [|s ss IH]; [done|].
  simpl. rewrite map_app, Zsum_app, IH, map_map. done.
Qed.

Lemma elem_of_gen_pairs (statuses queues : list string) (sq : string * string) :
  sq ∈ gen_pairs statuses queues -> sq.1 ∈ statuses.
Proof.
  unfold gen_pairs. intros Hin.
  apply list_elem_of_In, in_flat_map in Hin as (s & Hs & Hsq).
  apply in_map_iff in Hsq as (q & <- & _). simpl. by apply list_elem_of_In.
Qed.

(** C4. If on the inspector the proc works on (the registered one for its
    application, or a new one) every configured status yields a tally
    [T status], then [inspect_count] raises nothing and returns the sum,
    over the configured statuses and queues, of [T status][queue], where a
    queue absent from a tally counts 0. *)
Theorem inspect_count_sums_tallies (w : World) (self : CeleryProc) (cache : Cache)
    (T : string -> Counter) :
  (∀ s, s ∈ inspect_statuses self ->
        (inspector_getitem w s (cache_inspector cache (app self))).1.1 = Ok (T s)) ->
  (inspect_count w self cache).1.1
  = Ok (Zsum (map (λ s, Zsum (map (λ q, counter_get (T s) q) (queues self)))
                  (inspect_statuses self)))
  ∧ ∀ s q, T s !! q = None -> counter_get (T s) q = 0.
Proof.
  intros HT. split; [|by intros s q Hq; unfold counter_get; rewrite Hq].
  rewrite <- (Zsum_gen_pairs (λ sq, counter_get (T sq.1) sq.2)).
  rewrite inspect_count_eq.
  pose proof (inspector_sum_ok w T (gen_pairs (inspect_statuses self) (queues self))
                0 (cache_inspector cache (app self))) as Hsum.
  destruct (gen_pairs (inspect_statuses self) (queues self)) as [|p ps] eqn:Hp;
    [done|].
  destruct (inspector_sum w (p :: ps) 0 _) as [[r i'] tr]. simpl in *.
  apply Hsum. intros sq Hsq.
  rewrite <- inspector_getitem_result. apply HT.
  apply (elem_of_gen_pairs _ (queues self)). by rewrite Hp.
Qed.

Lemma inspect_count_sums_tallies_witness :
  (inspect_count one_task_world inspecting_proc ∅).1.1 = Ok 1.
Proof.
  refine (proj1 (inspect_count_sums_tallies one_task_world inspecting_proc ∅
                   one_task_tallies _)).
  intros s Hs. simpl in Hs.
  apply elem_of_cons in Hs as [-> | Hs]; [reflexivity|].
  apply list_elem_of_singleton in Hs as ->. reflexivity.
Defined.

(** On the passive-declare path, with a cache and at least one status to
    inspect, [quantity] adds [inspect_count(cache)] to the broker sum. *)
Lemma quantity_passive_adds_inspect_count (w : World) (self : CeleryProc)
    (c : Cache) (count : Z) :
  _size (channel self) = None ->
  declare_loop (channel self) (queues self) 0 = Ok count ->
  inspect_statuses self ≠ [] ->
  quantity w self (Some c)
  = match inspect_count w self c with
    | (Ok n, c', tr) => (Ok (count + n), Some c', tr)
    | (Raise e, c', tr) => (Raise e, Some c', tr)
    end.
Proof.
  intros Hsize Hloop Hst. unfold quantity. rewrite Hsize.
  unfold bind, lift_result. rewrite Hloop, bool_decide_eq_true_2 by done.
  by destruct (inspect_count w self c) as [[[n|e] c'] tr].
Qed.

(** C1. A proc with a non-empty [inspect_statuses] on a channel with a
    direct size query, called with a cache: the broker holds 3 messages and
    one active task sits on the proc's queue, so [inspect_count(cache)] is
    1, yet [quantity] returns 3, leaves the cache untouched and asks no
    worker. The same proc on a passive-declare channel returns 4. *)
Theorem quantity_direct_size_skips_inspect_count :
  quantity one_task_world redis_inspecting_proc (Some ∅) = (Ok 3, Some ∅, [])
  ∧ (inspect_count one_task_world redis_inspecting_proc ∅).1.1 = Ok 1
  ∧ (quantity one_task_world amqp_inspecting_proc (Some ∅)).1.1 = Ok 4.
Proof. split_and!; reflexivity. Qed.

(** ** One cache, many calls *)

Lemma registry_of_insert (cache : Cache) (reg : Registry) :
  registry_of (<["celery_inspect" := reg]> cache) = reg.
Proof. unfold registry_of. by rewrite lookup_insert_eq. Qed.

Lemma cache_inspector_app (cache : Cache) (a : AppHandle) :
  registry_wf cache -> insp_app (cache_inspector cache a) = a.
Proof.
  intros Hwf. unfold cache_inspector.
  destruct (registry_of cache !! a) as [i|] eqn:Hi; simpl; [by apply Hwf | done].
Qed.

Lemma Counter_of_positive (qs : list string) (q : string) (n : Z) :
  Counter_of qs !! q = Some n -> 1 <= n.
Proof.
  rewrite Counter_of_lookup. destruct (length _); [done|]. intros [= <-]. lia.
Qed.

Lemma count_event_cons (e x : Event) (tr : list Event) :
  count_event e (x :: tr)
  = ((if decide (x = e) then 1 else 0) + count_event e tr)%nat.
Proof. unfold count_event. rewrite filter_cons. by destruct (decide (x = e)). Qed.

Lemma count_event_absent (e : Event) (tr : list Event) :
  e ∉ tr -> count_event e tr = 0%nat.
Proof.
  induction tr as [|x tr IH]; intros Hnotin; [done|].
  rewrite count_event_cons, decide_False, IH; [done| |].
  - intros Hin. apply Hnotin. by right.
  - intros ->. apply Hnotin. by left.
Qed.

(** What a call of [get_status_task_counts] can do, whatever the workers:
    it stays on its application, stores no tally, asks for the bindings at
    most when it resolves the routing table or raises, asks for its own
    status at most once, and returns only tallies of positive counts. *)
Lemma get_status_task_counts_shape (ws : Workers) (status : string)
    (self : Inspector) :
  insp_app (get_status_task_counts ws status self).1.2 = insp_app self
  ∧ insp_items (get_status_task_counts ws status self).1.2 = insp_items self
  ∧ (∀ e, e ∈ (get_status_task_counts ws status self).2 ->
          e = QueryActiveQueues (insp_app self)
          ∨ e = QueryStatus (insp_app self) status)
  ∧ ((has_routes self <= has_routes (get_status_task_counts ws status self).1.2)%nat
     ∧ (count_event (QueryActiveQueues (insp_app self))
          (get_status_task_counts ws status self).2 + has_routes self
        <= has_routes (get_status_task_counts ws status self).1.2
           + raised (get_status_task_counts ws status self).1.1)%nat)
  ∧ (count_event (QueryStatus (insp_app self) status)
       (get_status_task_counts ws status self).2 <= 1)%nat
  ∧ ∀ c, (get_status_task_counts ws status self).1.1 = Ok c ->
         ∀ q n, c !! q = Some n -> 1 <= n.
Proof.
  unfold get_status_task_counts. case_bool_decide; cycle 1.
  { cbn. split_and!; try done; try lia.
    intros e He. by apply elem_of_nil in He. }
  unfold bind, get_route_queues.
  repeat case_match; simplify_eq; unfold has_routes;
    cbn [fst snd app insp_app insp_items route_queues set_route_queues raised];
    repeat match goal with H : route_queues _ = _ |- _ => rewrite H end;
    simpl (_ ++ _); rewrite ?count_event_cons;
    (split_and!;
     [ done | done
     | intros ev Hev;
       repeat (apply elem_of_cons in Hev as [->|Hev]; [by auto|]);
       by apply elem_of_nil in Hev
     | lia
     | repeat case_decide; simplify_eq; unfold count_event; simpl; lia
     | repeat case_decide; simplify_eq; unfold count_event; simpl; lia
     | try done; intros c [= <-]; apply Counter_of_positive ]).
Qed.

Lemma insp_bound_refl (self : Inspector) (k : nat) : insp_bound self self [] k.
Proof.
  unfold insp_bound. split_and!; try done.
  - intros e He. by apply elem_of_nil in He.
  - unfold count_event. simpl. lia.
  - intros s. split; [done|]. unfold count_event. simpl. lia.
Qed.

Lemma insp_bound_trans (i0 i1 i2 : Inspector) (t1 t2 : list Event) (k : nat) :
  insp_bound i0 i1 t1 0 -> insp_bound i1 i2 t2 k -> insp_bound i0 i2 (t1 ++ t2) k.
Proof.
  intros (Ha1 & He1 & Hn1 & [Hm1 Hr1] & Hs1) (Ha2 & He2 & Hn2 & [Hm2 Hr2] & Hs2).
  rewrite Ha1 in *. unfold insp_bound. split_and!.
  - done.
  - intros e He. apply elem_of_app in He as [He|He]; [by apply He1 | by apply He2].
  - intros a. rewrite count_event_app, Hn1, Hn2. done.
  - lia.
  - rewrite count_event_app. lia.
  - intros s. destruct (Hs1 s) as [Hm1' Hc1]. destruct (Hs2 s) as [Hm2' Hc2].
    rewrite count_event_app. lia.
Qed.

(** One item access, whatever the workers: a query it issues either
    leaves its result memoized or makes the access raise. *)
Lemma inspector_getitem_bound (ws : Workers) (s : string) (self : Inspector) :
  insp_bound self (inspector_getitem ws s self).1.2 (inspector_getitem ws s self).2
    (raised (inspector_getitem ws s self).1.1).
Proof.
  destruct (insp_items self !! s) as [c|] eqn:Hc.
  { rewrite (inspector_getitem_hit _ _ _ c) by done. apply insp_bound_refl. }
  rewrite inspector_getitem_miss by done.
  destruct (get_status_task_counts_shape ws s self)
    as (Happ & Hitems & Hev & [Hmono Hroutes] & Hone & _).
  assert (Hother : ∀ s', s' ≠ s ->
    count_event (QueryStatus (insp_app self) s')
      (get_status_task_counts ws s self).2 = 0%nat).
  { intros s' Hne. apply count_event_absent. intros Hin.
    destruct (Hev _ Hin) as [Heq|Heq]; simplify_eq. }
  assert (Hnew : ∀ a, count_event (NewInspector a)
      (get_status_task_counts ws s self).2 = 0%nat).
  { intros a. apply count_event_absent. intros Hin.
    destruct (Hev _ Hin) as [Heq|Heq]; simplify_eq. }
  assert (Hall : ∀ e, e ∈ (get_status_task_counts ws s self).2 ->
                      event_app e = insp_app self).
  { intros e Hin. by destruct (Hev _ Hin) as [->| ->]. }
  destruct (get_status_task_counts ws s self) as [[[c|e] self1] tr];
    cbn [fst snd raised] in *;
    (split_and!;
     [done | done | done
     | unfold has_routes in *; simpl; lia
     | unfold has_routes in *; simpl; lia |]).
  - intros s'. unfold has_status. simpl. rewrite Hitems, lookup_insert.
    destruct (decide (s = s')) as [<-|Hne].
    + rewrite Hc. lia.
    + rewrite Hother by done. destruct (insp_items self !! s'); lia.
  - intros s'. unfold has_status. rewrite Hitems.
    destruct (decide (s' = s)) as [->|Hne].
    + rewrite Hc. lia.
    + rewrite Hother by done. destruct (insp_items self !! s'); lia.
Qed.

Lemma inspector_sum_bound (ws : Workers) pairs acc (self : Inspector) :
  insp_bound self (inspector_sum ws pairs acc self).1.2
    (inspector_sum ws pairs acc self).2
    (raised (inspector_sum ws pairs acc self).1.1).
Proof.
  revert acc self. induction pairs as [|[s q] pairs IH]; intros acc self.
  - simpl. apply insp_bound_refl.
  - rewrite inspector_sum_cons.
    pose proof (inspector_getitem_bound ws s self) as Hd.
    destruct (inspector_getitem ws s self) as [[[c|e] self1] tr1]; simpl in Hd;
      [|done].
    specialize (IH (acc + counter_get c q) self1).
    destruct (inspector_sum ws pairs _ self1) as [[r2 self2] tr2]. simpl in *.
    by eapply insp_bound_trans.
Qed.

Lemma cache_bound_refl (c c' : Cache) (k : AppHandle -> nat) :
  registry_of c' = registry_of c -> cache_bound c c' [] k.
Proof.
  intros Hreg. unfold cache_bound, cache_has_insp, cache_has_routes,
    cache_has_status. rewrite Hreg.
  split_and!; intros; try split; unfold count_event; simpl; lia.
Qed.

Lemma cache_bound_trans (c0 c1 c2 : Cache) (t1 t2 : list Event)
    (k1 k2 k : AppHandle -> nat) :
  (∀ a, k a = (k1 a + k2 a)%nat) ->
  cache_bound c0 c1 t1 k1 -> cache_bound c1 c2 t2 k2 ->
  cache_bound c0 c2 (t1 ++ t2) k.
Proof.
  intros Hk (Hn1 & Hr1 & Hs1) (Hn2 & Hr2 & Hs2). unfold cache_bound. split_and!.
  - intros a. rewrite count_event_app. specialize (Hn1 a). specialize (Hn2 a). lia.
  - intros a. rewrite count_event_app, Hk.
    destruct (Hr1 a). destruct (Hr2 a). lia.
  - intros a s. rewrite count_event_app, Hk.
    destruct (Hs1 a s). destruct (Hs2 a s). lia.
Qed.

(** One call, whatever the workers: what it leaves in the cache and what
    it emits. *)
Lemma inspect_count_step (w : Workers) (self : CeleryProc) (c : Cache) :
  registry_wf c ->
  registry_wf (inspect_count w self c).1.2
  ∧ cache_bound c (inspect_count w self c).1.2 (inspect_count w self c).2
      (λ a, if decide (app self = a) then raised (inspect_count w self c).1.1
            else 0%nat)
  ∧ (∀ b, b ≠ app self ->
          registry_of (inspect_count w self c).1.2 !! b = registry_of c !! b)
  ∧ (∀ e, e ∈ (inspect_count w self c).2 -> event_app e = app self).
Proof.
  intros Hwf. rewrite inspect_count_eq.
  destruct (gen_pairs (inspect_statuses self) (queues self)) as [|p ps].
  { simpl. split_and!.
    - intros a i. rewrite registry_of_insert. apply Hwf.
    - apply cache_bound_refl. by rewrite registry_of_insert.
    - intros b _. by rewrite registry_of_insert.
    - intros e He. by apply elem_of_nil in He. }
  pose proof (inspector_sum_bound w (p :: ps) 0 (cache_inspector c (app self)))
    as (Happ & Hev & Hnew & [Hrmono Hroutes] & Hstat).
  rewrite (cache_inspector_app c (app self) Hwf) in *.
  destruct (inspector_sum w (p :: ps) 0 _) as [[r i'] tr]. simpl in *.
  assert (Hall : ∀ e, e ∈ new_events (registry_of c) (app self) ++ tr ->
                      event_app e = app self).
  { intros e He. apply elem_of_app in He as [He|He]; [|by apply Hev].
    unfold new_events in He. destruct (registry_of c !! app self).
    - by apply elem_of_nil in He.
    - by apply list_elem_of_singleton in He as ->. }
  split_and!.
  - intros b i. rewrite registry_of_insert, lookup_insert.
    destruct (decide (app self = b)) as [<-|Hne]; [by intros [= <-] | by apply Hwf].
  - unfold cache_bound, cache_has_insp, cache_has_routes, cache_has_status.
    rewrite registry_of_insert.
    split_and!; intros b; [| |intros s];
      rewrite lookup_insert;
      (destruct (decide (app self = b)) as [<-|Hne];
       [| rewrite (count_event_other_app _ _)
            by (intros x Hx; rewrite (Hall x Hx); simpl; congruence);
          destruct (registry_of c !! b); try split; lia]).
    + rewrite count_event_app, Hnew. unfold new_events.
      destruct (registry_of c !! app self); [done|].
      by rewrite count_event_singleton, decide_True by done.
    + rewrite count_event_app.
      revert Hrmono Hroutes. unfold cache_inspector, new_events.
      destruct (registry_of c !! app self); simpl; [done|].
      unfold has_routes at 1 3. simpl. lia.
    + destruct (Hstat s) as [Hmono Hcount]. rewrite count_event_app.
      revert Hmono Hcount. unfold cache_inspector, new_events.
      destruct (registry_of c !! app self); simpl; [done|].
      unfold has_status at 1 3. simpl. rewrite lookup_empty. lia.
  - intros b Hne. rewrite registry_of_insert. by apply lookup_insert_ne.
  - done.
Qed.

Lemma run_calls_cons (w : Workers) (self : CeleryProc) (rest : list Call) (c : Cache) :
  run_calls ((w, self) :: rest) c
  = ((app self, (inspect_count w self c).1.1)
       :: (run_calls rest (inspect_count w self c).1.2).1.1,
     (run_calls rest (inspect_count w self c).1.2).1.2,
     (inspect_count w self c).2 ++ (run_calls rest (inspect_count w self c).1.2).2).
Proof.
  simpl. destruct (inspect_count w self c) as [[r c1] tr1]. simpl.
  by destruct (run_calls rest c1) as [[rs c2] tr2].
Qed.

Lemma run_calls_bound (calls : list Call) (c : Cache) :
  registry_wf c ->
  registry_wf (run_calls calls c).1.2
  ∧ cache_bound c (run_calls calls c).1.2 (run_calls calls c).2
      (λ a, raised_calls_of a (run_calls calls c).1.1).
Proof.
  revert c. induction calls as [|[w self] rest IH]; intros c Hwf.
  - simpl. split; [done|]. by apply cache_bound_refl.
  - rewrite run_calls_cons. simpl.
    destruct (inspect_count_step w self c Hwf) as (Hwf1 & Hd1 & _ & _).
    destruct (IH _ Hwf1) as (Hwf2 & Hd2).
    split; [done|]. by eapply cache_bound_trans; [|exact Hd1|exact Hd2].
Qed.

Lemma filter_all {A} (P : A -> Prop) `{∀ x, Decision (P x)} (l : list A) :
  (∀ x, x ∈ l -> P x) -> filter P l = l.
Proof.
  induction l as [|x l IH]; intros HP; [done|].
  rewrite filter_cons_True by (apply HP; by left).
  f_equal. apply IH. intros y Hy. apply HP. by right.
Qed.

Lemma filter_none {A} (P : A -> Prop) `{∀ x, Decision (P x)} (l : list A) :
  (∀ x, x ∈ l -> ¬ P x) -> filter P l = [].
Proof.
  induction l as [|x l IH]; intros HP; [done|].
  rewrite filter_cons_False by (apply HP; by left).
  apply IH. intros y Hy. apply HP. by right.
Qed.

(** A call depends on the cache only through the inspector registered for
    the proc's application. *)
Lemma inspect_count_local (w : Workers) (self : CeleryProc) (c1 c2 : Cache) :
  registry_of c1 !! app self = registry_of c2 !! app self ->
  (inspect_count w self c1).1.1 = (inspect_count w self c2).1.1
  ∧ (inspect_count w self c1).2 = (inspect_count w self c2).2
  ∧ registry_of (inspect_count w self c1).1.2 !! app self
    = registry_of (inspect_count w self c2).1.2 !! app self.
Proof.
  intros Heq. rewrite !inspect_count_eq.
  assert (Hi : cache_inspector c1 (app self) = cache_inspector c2 (app self))
    by (unfold cache_inspector; by rewrite Heq).
  assert (Hn : new_events (registry_of c1) (app self)
               = new_events (registry_of c2) (app self))
    by (unfold new_events; by rewrite Heq).
  rewrite Hi, Hn.
  destruct (gen_pairs (inspect_statuses self) (queues self)) as [|p ps].
  - simpl. by rewrite !registry_of_insert.
  - destruct (inspector_sum w (p :: ps) 0 _) as [[r i'] tr]. simpl.
    by rewrite !registry_of_insert, !lookup_insert_eq.
Qed.

(** For each application, the whole run and the run of its own procs alone
    agree on its inspector, its events and its results. *)
Lemma run_calls_own (calls : list Call) (a : AppHandle) (c1 c2 : Cache) :
  registry_wf c1 -> registry_wf c2 ->
  registry_of c1 !! a = registry_of c2 !! a ->
  registry_of (run_calls calls c1).1.2 !! a
  = registry_of (run_calls (filter (λ c, app c.2 = a) calls) c2).1.2 !! a
  ∧ filter (λ e, event_app e = a) (run_calls calls c1).2
    = (run_calls (filter (λ c, app c.2 = a) calls) c2).2
  ∧ filter (λ ar, ar.1 = a) (run_calls calls c1).1.1
    = (run_calls (filter (λ c, app c.2 = a) calls) c2).1.1.
Proof.
  revert c1 c2. induction calls as [|[w self] rest IH]; intros c1 c2 Hwf1 Hwf2 Heq.
  - done.
  - rewrite filter_cons, run_calls_cons. simpl.
    destruct (inspect_count_step w self c1 Hwf1) as (Hwf1' & _ & Hframe1 & Hev1).
    destruct (decide (app self = a)) as [<-|Hne].
    + rewrite run_calls_cons. simpl.
      destruct (inspect_count_step w self c2 Hwf2) as (Hwf2' & _ & _ & _).
      destruct (inspect_count_local w self c1 c2 Heq) as (Hr & Ht & Hreg).
      destruct (IH _ _ Hwf1' Hwf2' Hreg) as (IH1 & IH2 & IH3).
      split_and!.
      * done.
      * rewrite filter_app, (filter_all _ _ Hev1), IH2, Ht. done.
      * rewrite filter_cons_True by done. by rewrite IH3, Hr.
    + assert (Hreg : registry_of (inspect_count w self c1).1.2 !! a
                     = registry_of c2 !! a)
        by (rewrite Hframe1 by done; done).
      destruct (IH _ _ Hwf1' Hwf2 Hreg) as (IH1 & IH2 & IH3).
      split_and!.
      * done.
      * rewrite filter_app, filter_none; [done|].
        intros e He. rewrite (Hev1 e He). done.
      * by rewrite filter_cons_False by done.
Qed.

Lemma registry_wf_empty : registry_wf ∅.
Proof. intros a i. unfold registry_of. rewrite lookup_empty. simpl. by rewrite lookup_empty. Qed.

(** C5, as the code has it. Over any sequence of [inspect_count] calls
    against one cache that starts empty, whatever the workers answer and
    whichever of their queries fail: at most one inspector is built per
    application handle; for each application handle, the bindings are asked
    for (the routing table is resolved) at most once, and each status's
    worker query runs at most once, plus once per call of a proc with that
    handle that raised, hence at most once as long as no such call raised;
    and for every application handle the inspector left in the cache, the
    events and the results are those of running the procs with that handle
    alone. *)
Theorem inspector_cache_reuse (calls : list Call) :
  let run := run_calls calls ∅ in
  (∀ a, (count_event (NewInspector a) run.2 <= 1)%nat)
  ∧ (∀ a, (count_event (QueryActiveQueues a) run.2
           <= 1 + raised_calls_of a run.1.1)%nat)
  ∧ (∀ a s, (count_event (QueryStatus a s) run.2
             <= 1 + raised_calls_of a run.1.1)%nat)
  ∧ ∀ a, let own := run_calls (filter (λ c, app c.2 = a) calls) ∅ in
         registry_of run.1.2 !! a = registry_of own.1.2 !! a
         ∧ filter (λ e, event_app e = a) run.2 = own.2
         ∧ filter (λ ar, ar.1 = a) run.1.1 = own.1.1.
Proof.
  intros run.
  destruct (run_calls_bound calls ∅ registry_wf_empty) as (_ & Hn & Hr & Hs).
  fold run in Hn, Hr, Hs. split_and!.
  - intros a. specialize (Hn a). revert Hn.
    unfold cache_has_insp. destruct (registry_of run.1.2 !! a); lia.
  - intros a. destruct (Hr a) as [_ Hc]. revert Hc.
    unfold cache_has_routes. destruct (registry_of run.1.2 !! a) as [i|];
      [pose proof (has_routes_le_1 i)|]; lia.
  - intros a s. destruct (Hs a s) as [_ Hc]. revert Hc.
    unfold cache_has_status. destruct (registry_of run.1.2 !! a) as [i|];
      [pose proof (has_status_le_1 i s)|]; lia.
  - intros a own. by apply run_calls_own; try apply registry_wf_empty.
Qed.

(** C5, as stated, fails: when the only active task was delivered through
    a pair that no worker is bound to, each of two calls against the same
    cache raises the lookup error, and the 'active' worker query is issued
    by both. *)
Lemma status_query_repeated_after_lookup_error :
  let run := run_calls [(reliable stale_world, active_q_proc);
                        (reliable stale_world, active_q_proc)] ∅ in
  run.1.1 = [(0%nat, Raise (KeyError ["e"; "r"])); (0%nat, Raise (KeyError ["e"; "r"]))]
  ∧ run.2 = [NewInspector 0%nat; QueryActiveQueues 0%nat;
             QueryStatus 0%nat "active"; QueryStatus 0%nat "active"]
  ∧ ¬ (count_event (QueryStatus 0%nat "active") run.2 <= 1)%nat.
Proof.
  split_and!; [reflexivity | reflexivity |].
  vm_compute. intros Hle. inversion Hle as [|? Hle']. inversion Hle'.
Qed.

(** The routing-table resolution is repeated in the same way: while the
    workers cannot be reached for their bindings, every call asks for them
    again; and a status whose reply is missing is asked for again by every
    call, with the bindings asked for once. *)
Remark worker_queries_repeated_after_failure :
  (run_calls [(unreachable_workers, active_q_proc);
              (unreachable_workers, active_q_proc)] ∅).2
  = [NewInspector 0%nat; QueryActiveQueues 0%nat; QueryActiveQueues 0%nat]
  ∧ (run_calls [(silent_workers, active_q_proc);
                (silent_workers, active_q_proc)] ∅).2
    = [NewInspector 0%nat; QueryActiveQueues 0%nat;
       QueryStatus 0%nat "active"; QueryStatus 0%nat "active"].
Proof. split; reflexivity. Qed.

(** The method itself does not memoize: only item access on the inspector
    does. Called directly twice, [get_status_task_counts] asks the workers
    for the status twice (and for the bindings once). *)
Remark get_status_task_counts_direct_calls_requery :
  (run_ops [OpGetStatusTaskCounts one_task_world "active";
            OpGetStatusTaskCounts one_task_world "active"]
           (CeleryInspector 0%nat)).2
  = [QueryActiveQueues 0%nat; QueryStatus 0%nat "active"; QueryStatus 0%nat "active"]
  ∧ (run_ops [OpGetItem one_task_world "active"; OpGetItem one_task_world "active"]
             (CeleryInspector 0%nat)).2
    = [QueryActiveQueues 0%nat; QueryStatus 0%nat "active"].
Proof. split; reflexivity. Qed.

(** * Further properties of [quantity] *)

(** ** The broker paths *)

(** Summing results that need no state neither reads nor changes the
    state and emits nothing. *)
Lemma sum_gen_lift_stateless {S A} (f : A -> Result Z) (xs : list A) acc (s : S) :
  sum_gen (λ x, lift_result (f x)) xs acc s
  = ((sum_gen (λ x, lift_result (f x)) xs acc tt).1.1, s, []).
Proof.
  revert acc. induction xs as [|x xs IH]; intros acc; [done|].
  simpl. unfold bind, lift_result at 1 3.
  destruct (f x) as [n|e]; [|done].
  rewrite (IH (acc + n)).
  by destruct (sum_gen _ xs (acc + n) tt) as [[r u] tr].
Qed.

Lemma sum_gen_lift_raise {S A} (f : A -> Result Z) (pre post : list A) (x : A)
    (e : Exception) acc (s : S) :
  (∀ y, y ∈ pre -> is_ok (f y) = true) ->
  f x = Raise e ->
  sum_gen (λ x, lift_result (f x)) (pre ++ x :: post) acc s = (Raise e, s, []).
Proof.
  revert acc. induction pre as [|y pre IH]; intros acc Hpre Hx; simpl.
  - unfold bind, lift_result. by rewrite Hx.
  - unfold bind, lift_result at 1.
    pose proof (Hpre y ltac:(by left)) as Hy.
    destruct (f y) as [n|]; [|done].
    rewrite IH; [done| |done]. intros z Hz. apply Hpre. by right.
Qed.

Lemma declare_loop_raise (ch : Channel) (pre post : list string) (q : string)
    (e : Exception) (count : Z) :
  (∀ x, x ∈ pre ->
        queue_declare ch x = Raise ChannelError ∨ is_ok (queue_declare ch x) = true) ->
  queue_declare ch q = Raise e ->
  e ≠ ChannelError ->
  declare_loop ch (pre ++ q :: post) count = Raise e.
Proof.
  revert count. induction pre as [|x pre IH]; intros count Hpre Hq He; simpl.
  - rewrite Hq. by destruct e.
  - assert (Hrest : ∀ y, y ∈ pre ->
        queue_declare ch y = Raise ChannelError ∨ is_ok (queue_declare ch y) = true)
      by (intros y Hy; apply Hpre; by right).
    destruct (Hpre x ltac:(by left)) as [Herr | Hok].
    + rewrite Herr. by apply IH.
    + destruct (queue_declare ch x) as [m|]; [|done]. by apply IH.
Qed.

(** X1. On a channel with a direct size query, [quantity] depends on
    nothing but the sizes and the queue list: whatever the workers, the
    cache, the configured statuses and the rest of the channel, it returns
    the same result, hands the cache back as it was and asks no worker. *)
Theorem quantity_direct_size_reads_sizes_only (w w' : World)
    (self self' : CeleryProc) (cache cache' : option Cache)
    (size : string -> Result Z) :
  _size (channel self) = Some size ->
  _size (channel self') = Some size ->
  queues self' = queues self ->
  (quantity w self cache).1.1 = (quantity w' self' cache').1.1
  ∧ (quantity w self cache).1.2 = cache
  ∧ (quantity w self cache).2 = [].
Proof.
  intros Hs Hs' Hq. unfold quantity. rewrite Hs, Hs', Hq.
  rewrite (sum_gen_lift_stateless size _ 0 cache).
  by rewrite (sum_gen_lift_stateless size _ 0 cache').
Qed.

(** X2. On the direct-size path the first size query that raises ends the
    call with that exception. *)
Theorem quantity_direct_size_error_propagates (w : World) (self : CeleryProc)
    (cache : option Cache) (size : string -> Result Z)
    (pre post : list string) (q : string) (e : Exception) :
  _size (channel self) = Some size ->
  queues self = pre ++ q :: post ->
  (∀ x, x ∈ pre -> is_ok (size x) = true) ->
  size q = Raise e ->
  quantity w self cache = (Raise e, cache, []).
Proof.
  intros Hs Hq Hpre He. unfold quantity. rewrite Hs, Hq.
  by apply sum_gen_lift_raise.
Qed.

(** X3. On the passive-declare path only a channel error is passed over:
    the first declare that raises anything else ends the call with that
    exception, before any inspection (the cache is handed back as it was
    and no worker is asked). *)
Theorem quantity_passive_declare_other_error_propagates (w : World)
    (self : CeleryProc) (cache : option Cache)
    (pre post : list string) (q : string) (e : Exception) :
  _size (channel self) = None ->
  queues self = pre ++ q :: post ->
  (∀ x, x ∈ pre ->
        queue_declare (channel self) x = Raise ChannelError
        ∨ is_ok (queue_declare (channel self) x) = true) ->
  queue_declare (channel self) q = Raise e ->
  e ≠ ChannelError ->
  quantity w self cache = (Raise e, cache, []).
Proof.
  intros Hs Hq Hpre Hraise He. unfold quantity. rewrite Hs, Hq.
  unfold bind, lift_result. by rewrite (declare_loop_raise _ _ _ _ e).
Qed.

(** X4. With an empty [inspect_statuses] (the default) the cache plays no
    part: [quantity] returns what it returns without a cache, hands the
    cache back as it was and asks no worker, on either broker path. *)
Theorem quantity_no_statuses_ignores_cache (w : World) (self : CeleryProc)
    (c : Cache) :
  inspect_statuses self = [] ->
  quantity w self (Some c) = ((quantity w self None).1.1, Some c, []).
Proof.
  intros Hst. unfold quantity.
  destruct (_size (channel self)) as [size|].
  - rewrite (sum_gen_lift_stateless size _ 0 (Some c)).
    by rewrite (sum_gen_lift_stateless size _ 0 None).
  - unfold bind, lift_result. rewrite Hst.
    by destruct (declare_loop (channel self) (queues self) 0).
Qed.

(** * Further properties of [inspect_count] *)

(** ** What one inspector memoizes *)

Lemma inspector_sum_hit (w : World) (T : string -> Counter) pairs acc
    (self : Inspector) :
  (∀ sq, sq ∈ pairs -> insp_items self !! sq.1 = Some (T sq.1)) ->
  inspector_sum w pairs acc self
  = (Ok (acc + Zsum (map (λ sq, counter_get (T sq.1) sq.2) pairs)), self, []).
Proof.
  revert acc. induction pairs as [|[s q] pairs IH]; intros acc HT.
  - simpl. unfold ret. by rewrite Z.add_0_r.
  - rewrite inspector_sum_cons.
    rewrite (inspector_getitem_hit w s self (T s))
      by (apply (HT (s, q)); by left).
    rewrite IH by (intros sq Hsq; apply HT; by right).
    simpl. do 3 f_equal. lia.
Qed.

Lemma inspector_getitem_keeps (w : World) (s s' : string) (self : Inspector) c' :
  insp_items self !! s' = Some c' ->
  insp_items (inspector_getitem w s self).1.2 !! s' = Some c'.
Proof.
  intros Hc'. destruct (insp_items self !! s) as [c|] eqn:Hc.
  { by rewrite (inspector_getitem_hit _ _ _ c). }
  rewrite inspector_getitem_miss, get_status_task_counts_eq by done.
  destruct (computed_counts w self s) as [c|e]; case_bool_decide; simpl;
    try done.
  all: rewrite lookup_insert_ne; [done|]; intros ->; congruence.
Qed.

Lemma inspector_getitem_stores (w : World) (s : string) (self : Inspector) c :
  (inspector_getitem w s self).1.1 = Ok c ->
  insp_items (inspector_getitem w s self).1.2 !! s = Some c.
Proof.
  destruct (insp_items self !! s) as [c0|] eqn:Hc.
  { rewrite (inspector_getitem_hit _ _ _ c0) by done. simpl. by intros [= <-]. }
  rewrite inspector_getitem_miss, get_status_task_counts_eq by done.
  destruct (computed_counts w self s) as [c1|e]; simpl; [|done].
  intros [= <-]. apply lookup_insert_eq.
Qed.

Lemma inspector_sum_keeps (w : World) pairs acc (self : Inspector) s' c' :
  insp_items self !! s' = Some c' ->
  insp_items (inspector_sum w pairs acc self).1.2 !! s' = Some c'.
Proof.
  revert acc self. induction pairs as [|[s q] pairs IH]; intros acc self Hc'.
  - done.
  - rewrite inspector_sum_cons.
    pose proof (inspector_getitem_keeps w s s' self c' Hc') as Hk.
    destruct (inspector_getitem w s self) as [[[c|e] self1] tr1]; simpl in Hk;
      [|done].
    specialize (IH (acc + counter_get c q) self1 Hk).
    by destruct (inspector_sum w pairs _ self1) as [[r2 self2] tr2].
Qed.

(** After a loop that returned, every status it visited is memoized, with
    the tally the inspector yielded for it at the start. *)
Lemma inspector_sum_memoizes (w : World) pairs acc (self : Inspector) :
  is_ok (inspector_sum w pairs acc self).1.1 = true ->
  ∀ sq, sq ∈ pairs ->
    ∃ c, insp_items (inspector_sum w pairs acc self).1.2 !! sq.1 = Some c
         ∧ status_task_counts w self sq.1 = Ok c.
Proof.
  revert acc self. induction pairs as [|[s q] pairs IH]; intros acc self Hok sq Hsq.
  - by apply elem_of_nil in Hsq.
  - revert Hok. rewrite inspector_sum_cons.
    pose proof (inspector_getitem_result w s self) as Hr.
    pose proof (inspector_getitem_stores w s self) as Hs.
    pose proof (λ s', inspector_getitem_stable w s s' self) as Hst.
    destruct (inspector_getitem w s self) as [[[c|e] self1] tr1];
      simpl in Hr, Hs, Hst; [|done].
    specialize (IH (acc + counter_get c q) self1).
    pose proof (inspector_sum_keeps w pairs (acc + counter_get c q) self1 s c
                  (Hs c eq_refl)) as Hk.
    destruct (inspector_sum w pairs _ self1) as [[r2 self2] tr2]. simpl in *.
    intros Hok. apply elem_of_cons in Hsq as [-> | Hsq].
    + exists c. by split.
    + destruct (IH Hok sq Hsq) as (c' & Hc' & Hcount).
      exists c'. split; [done|]. by rewrite <- Hst.
Qed.


(** The result of [inspect_count] when every configured status yields a
    tally on the proc's inspector. *)
Lemma inspect_count_tally_sum (w : World) (self : CeleryProc) (cache : Cache)
    (T : string -> Counter) :
  (∀ s, s ∈ inspect_statuses self ->
        status_task_counts w (cache_inspector cache (app self)) s = Ok (T s)) ->
  (inspect_count w self cache).1.1
  = Ok (Zsum (map (λ s, Zsum (map (λ q, counter_get (T s) q) (queues self)))
                  (inspect_statuses self))).
Proof.
  intros HT.
  rewrite <- (Zsum_gen_pairs (λ sq, counter_get (T sq.1) sq.2)).
  rewrite inspect_count_eq.
  pose proof (inspector_sum_ok w T (gen_pairs (inspect_statuses self) (queues self))
                0 (cache_inspector cache (app self))) as Hsum.
  destruct (gen_pairs (inspect_statuses self) (queues self)) as [|p ps] eqn:Hp;
    [done|].
  destruct (inspector_sum w (p :: ps) 0 _) as [[r i'] tr]. simpl in *.
  apply Hsum. intros sq Hsq. apply HT.
  apply (elem_of_gen_pairs _ (queues self)). by rewrite Hp.
Qed.

Lemma registry_of_present (c : Cache) (a : AppHandle) (i : Inspector) :
  registry_of c !! a = Some i -> c !! "celery_inspect" = Some (registry_of c).
Proof.
  unfold registry_of. destruct (c !! "celery_inspect") as [reg|]; [done|].
  simpl. by rewrite lookup_empty.
Qed.

(** ** Inspection through the cache *)

(** X5. On the passive-declare path, with a cache and at least one status
    to inspect: when every declare succeeds or fails with a channel error
    and every configured status yields a tally on the proc's inspector,
    [quantity] returns the broker sum plus the sum of the tallies over the
    configured statuses and queues. *)
Theorem quantity_passive_total (w : World) (self : CeleryProc) (c : Cache)
    (T : string -> Counter) :
  _size (channel self) = None ->
  (∀ q, q ∈ queues self ->
        queue_declare (channel self) q = Raise ChannelError
        ∨ is_ok (queue_declare (channel self) q) = true) ->
  inspect_statuses self ≠ [] ->
  (∀ s, s ∈ inspect_statuses self ->
        (inspector_getitem w s (cache_inspector c (app self))).1.1 = Ok (T s)) ->
  (quantity w self (Some c)).1.1
  = Ok (Zsum (map (declare_contribution (channel self)) (queues self))
        + Zsum (map (λ s, Zsum (map (λ q, counter_get (T s) q) (queues self)))
                    (inspect_statuses self))).
Proof.
  intros Hsize Hq Hst HT.
  rewrite (quantity_passive_adds_inspect_count w self c
             (Zsum (map (declare_contribution (channel self)) (queues self))))
    by (try done; by rewrite declare_loop_sum).
  pose proof (inspect_count_tally_sum w self c T) as Hsum.
  destruct (inspect_count w self c) as [[r c'] tr]. simpl in Hsum.
  rewrite Hsum; [done|].
  intros s Hs. rewrite <- inspector_getitem_result. by apply HT.
Qed.

(** X6. When the inspector registered for the proc's application already
    holds a tally for every configured status, [inspect_count] returns the
    sum of those tallies whatever the workers would answer now: it asks no
    worker, builds no inspector and leaves the cache exactly as it was. *)
Theorem inspect_count_memoized_no_query (w : World) (self : CeleryProc)
    (c : Cache) (i : Inspector) (T : string -> Counter) :
  registry_of c !! app self = Some i ->
  (∀ s, s ∈ inspect_statuses self -> insp_items i !! s = Some (T s)) ->
  inspect_count w self c
  = (Ok (Zsum (map (λ s, Zsum (map (λ q, counter_get (T s) q) (queues self)))
                   (inspect_statuses self))),
     c, []).
Proof.
  intros Hi HT.
  pose proof (registry_of_present c _ i Hi) as Hreg.
  rewrite <- (Zsum_gen_pairs (λ sq, counter_get (T sq.1) sq.2)).
  rewrite inspect_count_eq.
  assert (Hci : cache_inspector c (app self) = i)
    by (unfold cache_inspector; by rewrite Hi).
  assert (Hne : new_events (registry_of c) (app self) = [])
    by (unfold new_events; by rewrite Hi).
  rewrite Hci, Hne.
  pose proof (inspector_sum_hit w T (gen_pairs (inspect_statuses self) (queues self))
                0 i) as Hhit.
  destruct (gen_pairs (inspect_statuses self) (queues self)) as [|p ps] eqn:Hp.
  - by rewrite insert_id.
  - rewrite Hhit.
    + by rewrite (insert_id (registry_of c)), insert_id.
    + intros sq Hsq. apply HT.
      apply (elem_of_gen_pairs _ (queues self)). by rewrite Hp.
Qed.

(** X7. A call that returned is repeatable on the cache it left: the same
    proc gets the same number again, with no worker query and the cache
    unchanged, even if the workers' state has changed in between. *)
Theorem inspect_count_repeat (w w' : World) (self : CeleryProc) (c : Cache) (n : Z) :
  (inspect_count w self c).1.1 = Ok n ->
  inspect_count w' self (inspect_count w self c).1.2
  = (Ok n, (inspect_count w self c).1.2, []).
Proof.
  rewrite (inspect_count_eq w' self), (inspect_count_eq w self c).
  pose proof (inspector_sum_memoizes w
                (gen_pairs (inspect_statuses self) (queues self)) 0
                (cache_inspector c (app self))) as Hmemo.
  pose proof (λ T, inspector_sum_ok w T
                (gen_pairs (inspect_statuses self) (queues self)) 0
                (cache_inspector c (app self))) as Hsum.
  destruct (gen_pairs (inspect_statuses self) (queues self)) as [|p ps].
  { simpl. intros [= <-]. by rewrite registry_of_insert, insert_insert_eq. }
  destruct (inspector_sum w (p :: ps) 0 _) as [[r i'] tr]. simpl in *.
  intros ->. specialize (Hmemo eq_refl).
  set (T := λ s, default ∅ (insp_items i' !! s)).
  assert (HT : ∀ sq, sq ∈ p :: ps -> insp_items i' !! sq.1 = Some (T sq.1)
                                     ∧ status_task_counts w
                                         (cache_inspector c (app self)) sq.1
                                       = Ok (T sq.1)).
  { intros sq Hsq. destruct (Hmemo sq Hsq) as (c0 & Hc0 & Hcount).
    unfold T. by rewrite Hc0. }
  specialize (Hsum T (λ sq Hsq, proj2 (HT sq Hsq))). injection Hsum as ->.
  unfold cache_inspector, new_events.
  rewrite registry_of_insert, lookup_insert_eq. simpl.
  rewrite (inspector_sum_hit w' T) by (intros sq Hsq; by apply HT).
  by rewrite !insert_insert_eq.
Qed.



(** ** Which tasks an inspection counts *)

Lemma Zsum_map_add {A} (f g : A -> Z) (l : list A) :
  Zsum (map (λ x, f x + g x) l) = Zsum (map f l) + Zsum (map g l).
Proof. unfold Zsum. induction l as [|x l IH]; simpl; [done|]. rewrite IH. lia. Qed.

Lemma Zsum_map_zero {A} (l : list A) : Zsum (map (λ _, 0) l) = 0.
Proof. unfold Zsum. induction l as [|x l IH]; simpl; [done|]. by rewrite IH. Qed.

(** Over distinct queue names, a resolved queue is hit exactly once. *)
Lemma Zsum_indicator (o : option string) (qs : list string) :
  NoDup qs ->
  Zsum (map (λ q, if decide (o = Some q) then 1 else 0) qs)
  = match o with
    | Some q => if decide (q ∈ qs) then 1 else 0
    | None => 0
    end.
Proof.
  induction 1 as [|q qs Hnotin Hnd IH]; simpl.
  - by destruct o.
  - rewrite IH. destruct o as [q'|]; [|by rewrite decide_False by done].
    destruct (decide (Some q' = Some q)) as [Heq|Hne];
      destruct (decide (q' ∈ qs)) as [Hin|Hnin];
      destruct (decide (q' ∈ q :: qs)) as [Hin'|Hnin'];
      try lia; exfalso; simplify_eq.
    + done.
    + done.
    + apply Hnin'. by left.
    + apply Hnin'. by right.
    + apply elem_of_cons in Hin' as [->|Hin']; [by apply Hne | done].
Qed.

Lemma tasks_on_cons (rt : RouteTable) (t : Task) (ts : list Task) (q : string) :
  Z.of_nat (tasks_on rt (t :: ts) q)
  = (if decide (rt !! task_key t = Some q) then 1 else 0)
    + Z.of_nat (tasks_on rt ts q).
Proof.
  unfold tasks_on. rewrite filter_cons.
  destruct (decide (rt !! task_key t = Some q)); simpl length; lia.
Qed.

Lemma tasks_on_queues (rt : RouteTable) (tasks : list Task) (qs : list string) :
  NoDup qs ->
  Zsum (map (λ q, Z.of_nat (tasks_on rt tasks q)) qs)
  = Z.of_nat (length (filter (task_in_queues rt qs) tasks)).
Proof.
  intros Hnd. induction tasks as [|t ts IH].
  - apply Zsum_map_zero.
  - erewrite map_ext by (intros q; apply tasks_on_cons).
    rewrite Zsum_map_add, IH, Zsum_indicator by done.
    rewrite filter_cons.
    destruct (decide (task_in_queues rt qs t)) as [Hin|Hnin];
      unfold task_in_queues in Hin || unfold task_in_queues in Hnin;
      destruct (rt !! task_key t) as [q|]; try done.
    + rewrite decide_True by done. simpl length. lia.
    + rewrite decide_False by done. lia.
Qed.

Lemma computed_counts_resolved (w : World) (self : Inspector) (s : string) :
  s ∈ valid_statuses ->
  (∀ t, t ∈ status_tasks w (insp_app self) s ->
        is_Some (effective_routes w self !! task_key t)) ->
  computed_counts w self s
  = Ok (Counter_of (omap (λ t, effective_routes w self !! task_key t)
                         (status_tasks w (insp_app self) s))).
Proof.
  intros Hv Hres. unfold computed_counts.
  by rewrite bool_decide_eq_true_2, map_get_queue_ok by done.
Qed.

(** X9. A proc called on a cache that has no inspector for its application
    yet, with valid statuses, distinct queue names and every task
    resolvable: [inspect_count] returns the sum, over the entries of
    [inspect_statuses] (a status listed twice is summed twice), of the
    number of entries of that status's flattened worker reply that the
    routing table (resolved from the workers' bindings) attributes to one
    of the proc's queues. Within one status's reply an entry routed to a
    configured queue adds exactly 1 and any other entry adds 0. *)
Theorem inspect_count_counts_routed_tasks (w : World) (self : CeleryProc)
    (c : Cache) :
  let rt := build_route_queues (worker_bindings w (app self)) in
  registry_of c !! app self = None ->
  NoDup (queues self) ->
  (∀ s, s ∈ inspect_statuses self -> s ∈ valid_statuses) ->
  (∀ s t, s ∈ inspect_statuses self -> t ∈ status_tasks w (app self) s ->
          is_Some (rt !! task_key t)) ->
  (inspect_count w self c).1.1
  = Ok (Zsum (map (λ s, Z.of_nat (length (filter (task_in_queues rt (queues self))
                                                 (status_tasks w (app self) s))))
                  (inspect_statuses self))).
Proof.
  intros rt Hnone Hnd Hvalid Hres.
  set (T := λ s, Counter_of (omap (λ t, rt !! task_key t)
                                  (status_tasks w (app self) s))).
  rewrite (inspect_count_tally_sum w self c T).
  - do 2 f_equal. apply map_ext. intros s.
    rewrite <- (tasks_on_queues rt _ _ Hnd). f_equal. apply map_ext. intros q.
    unfold T. by rewrite Counter_of_get, omap_resolved_count.
  - intros s Hs. unfold cache_inspector. rewrite Hnone. simpl.
    unfold status_task_counts. simpl. rewrite lookup_empty.
    rewrite computed_counts_resolved; [done|by apply Hvalid|].
    intros t Ht. by apply (Hres s).
Qed.

(** ** Independence of the workers' order *)

Lemma Counter_of_resolved_lookup (rt : RouteTable) (tasks : list Task) (q : string) :
  Counter_of (omap (λ t, rt !! task_key t) tasks) !! q
  = match tasks_on rt tasks q with
    | O => None
    | S n => Some (Z.of_nat (S n))
    end.
Proof. by rewrite Counter_of_lookup, omap_resolved_count. Qed.

Lemma tasks_on_Permutation (rt : RouteTable) (ts ts' : list Task) (q : string) :
  ts ≡ₚ ts' -> tasks_on rt ts q = tasks_on rt ts' q.
Proof. intros Hp. unfold tasks_on. by rewrite Hp. Qed.

(** X10. The tally does not depend on the order in which the workers'
    tasks are iterated: for a valid status, once the routing table is the
    same, two replies that hold the same tasks in a different order, all
    resolvable, give the same mapping. *)
Theorem get_status_task_counts_order_independent (w w' : World) (s : string)
    (self : Inspector) :
  s ∈ valid_statuses ->
  effective_routes w' self = effective_routes w self ->
  status_tasks w (insp_app self) s ≡ₚ status_tasks w' (insp_app self) s ->
  (∀ t, t ∈ status_tasks w (insp_app self) s ->
        is_Some (effective_routes w self !! task_key t)) ->
  (get_status_task_counts w' s self).1.1 = (get_status_task_counts w s self).1.1
  ∧ is_ok (get_status_task_counts w s self).1.1 = true.
Proof.
  intros Hv Hrt Hperm Hres.
  rewrite !get_status_task_counts_eq. simpl.
  rewrite (computed_counts_resolved w) by done.
  rewrite (computed_counts_resolved w'); cycle 1.
  { done. }
  { intros t Ht. rewrite Hrt. apply Hres. by rewrite Hperm. }
  split; [|done]. f_equal. apply map_eq. intros q.
  rewrite Hrt, !Counter_of_resolved_lookup.
  by rewrite (tasks_on_Permutation _ _ _ q Hperm).
Qed.

Lemma build_route_queues_consistent (bs : list QueueBinding)
    (key : string * string) (n : string) :
  consistent_bindings bs ->
  build_route_queues bs !! key = Some n
  ↔ ∃ b, b ∈ bs ∧ binding_key b = key ∧ qb_name b = n.
Proof.
  intros Hcons. rewrite build_route_queues_lookup. split.
  - destruct (last (filter _ bs)) as [b|] eqn:Hlast; [|done].
    intros [= <-]. apply last_Some_elem_of, list_elem_of_filter in Hlast as [Hk Hin].
    eauto.
  - intros (b & Hin & Hk & Hn).
    assert (Hf : b ∈ filter (λ b, binding_key b = key) bs)
      by (by apply list_elem_of_filter).
    destruct (last (filter (λ b, binding_key b = key) bs)) as [b'|] eqn:Hlast.
    + apply last_Some_elem_of, list_elem_of_filter in Hlast as [Hk' Hin'].
      simpl. f_equal. rewrite <- Hn. apply Hcons; congruence.
    + apply last_None in Hlast. rewrite Hlast in Hf. by apply elem_of_nil in Hf.
Qed.

(** X11. When the bindings are consistent, the routing table does not
    depend on the order in which the workers' bindings are iterated: two
    replies holding the same bindings in a different order resolve to the
    same table, which maps a pair to a queue exactly when some binding
    does. *)
Theorem get_route_queues_order_independent (w w' : World) (self : Inspector) :
  route_queues self = None ->
  consistent_bindings (worker_bindings w (insp_app self)) ->
  worker_bindings w (insp_app self) ≡ₚ worker_bindings w' (insp_app self) ->
  (get_route_queues w' self).1.1 = (get_route_queues w self).1.1
  ∧ ∃ rt, (get_route_queues w self).1.1 = Ok rt
          ∧ ∀ key n, rt !! key = Some n
                     ↔ ∃ b, b ∈ worker_bindings w (insp_app self)
                            ∧ binding_key b = key ∧ qb_name b = n.
Proof.
  intros Hnone Hcons Hperm.
  assert (Hcons' : consistent_bindings (worker_bindings w' (insp_app self))).
  { intros b1 b2 H1 H2. apply Hcons; by rewrite Hperm. }
  rewrite !get_route_queues_eq. simpl. unfold effective_routes. rewrite Hnone.
  split.
  - f_equal. apply map_eq. intros key. apply option_eq. intros n.
    rewrite !build_route_queues_consistent by done.
    by setoid_rewrite Hperm.
  - eexists. split; [done|]. intros key n.
    by apply build_route_queues_consistent.
Qed.

(** ** Counts are never negative *)

Lemma counter_get_nonneg (c : Counter) (q : string) :
  (∀ n, c !! q = Some n -> 1 <= n) -> 0 <= counter_get c q.
Proof.
  intros Hpos. unfold counter_get. destruct (c !! q) as [n|]; simpl; [|done].
  specialize (Hpos n eq_refl). lia.
Qed.

Lemma inspector_getitem_positive (w : Workers) (s : string) (self : Inspector) :
  tallies_positive self ->
  tallies_positive (inspector_getitem w s self).1.2
  ∧ ∀ c, (inspector_getitem w s self).1.1 = Ok c ->
         ∀ q n, c !! q = Some n -> 1 <= n.
Proof.
  intros Hpos. destruct (insp_items self !! s) as [c0|] eqn:Hc.
  { rewrite (inspector_getitem_hit _ _ _ c0) by done. simpl.
    split; [done|]. intros c [= <-] q n. by apply (Hpos s). }
  rewrite inspector_getitem_miss by done.
  destruct (get_status_task_counts_shape w s self)
    as (_ & Hitems & _ & _ & _ & Hcomp).
  destruct (get_status_task_counts w s self) as [[[c1|e] self1] tr];
    cbn [fst snd] in *.
  - assert (Hc1 : ∀ q n, c1 !! q = Some n -> 1 <= n)
      by (intros q n; by apply (Hcomp c1)).
    split.
    + intros s' c' q n. simpl. rewrite Hitems, lookup_insert.
      destruct (decide (s = s')) as [<-|Hne];
        [intros [= <-]; apply Hc1 | apply Hpos].
    + intros c [= <-]. apply Hc1.
  - split; [|done]. intros s' c' q n. rewrite Hitems. apply Hpos.
Qed.

Lemma inspector_sum_nonneg (w : Workers) pairs acc (self : Inspector) :
  tallies_positive self ->
  tallies_positive (inspector_sum w pairs acc self).1.2
  ∧ ∀ n, (inspector_sum w pairs acc self).1.1 = Ok n -> acc <= n.
Proof.
  revert acc self. induction pairs as [|[s q] pairs IH]; intros acc self Hpos.
  - simpl. split; [done|]. intros n [= <-]. lia.
  - rewrite inspector_sum_cons.
    destruct (inspector_getitem_positive w s self Hpos) as [Hpos1 Hc].
    destruct (inspector_getitem w s self) as [[[c|e] self1] tr1]; simpl in *;
      [|by split].
    pose proof (counter_get_nonneg c q (Hc c eq_refl q)) as Hge.
    destruct (IH (acc + counter_get c q) self1 Hpos1) as [Hpos2 Hn].
    destruct (inspector_sum w pairs _ self1) as [[r2 self2] tr2]. simpl in *.
    split; [done|]. intros n Hr. specialize (Hn n Hr). lia.
Qed.

Lemma inspect_count_nonneg (w : Workers) (self : CeleryProc) (c : Cache) :
  cache_tallies_positive c ->
  cache_tallies_positive (inspect_count w self c).1.2
  ∧ ∀ n, (inspect_count w self c).1.1 = Ok n -> 0 <= n.
Proof.
  intros Hpos. rewrite inspect_count_eq.
  assert (Hi : tallies_positive (cache_inspector c (app self))).
  { unfold cache_inspector.
    destruct (registry_of c !! app self) as [i|] eqn:Hreg; simpl.
    - by apply (Hpos (app self)).
    - intros s c0 q n. simpl. by rewrite lookup_empty. }
  destruct (gen_pairs (inspect_statuses self) (queues self)) as [|p ps].
  - simpl. split; [|by intros n [= <-]].
    intros a i. rewrite registry_of_insert. apply Hpos.
  - destruct (inspector_sum_nonneg w (p :: ps) 0 _ Hi) as [Hpos' Hn].
    destruct (inspector_sum w (p :: ps) 0 _) as [[r i'] tr]. simpl in *.
    split; [|done].
    intros a i. rewrite registry_of_insert, lookup_insert.
    destruct (decide (app self = a)); [by intros [= <-] | apply Hpos].
Qed.

Lemma run_calls_nonneg (calls : list Call) (c : Cache) (a : AppHandle) (n : Z) :
  cache_tallies_positive c ->
  (a, Ok n) ∈ (run_calls calls c).1.1 -> 0 <= n.
Proof.
  revert c. induction calls as [|[w self] rest IH]; intros c Hpos Hin.
  - by apply elem_of_nil in Hin.
  - rewrite run_calls_cons in Hin. simpl in Hin.
    destruct (inspect_count_nonneg w self c Hpos) as [Hpos1 Hn].
    apply elem_of_cons in Hin as [[= _ Hr] | Hin].
    + by apply Hn.
    + by apply (IH _ Hpos1).
Qed.

(** X12. Whatever calls are made against a cache that starts empty, and
    whatever the workers answer, every number [inspect_count] returns is
    non-negative. *)
Theorem inspect_count_never_negative (calls : list Call) (a : AppHandle) (n : Z) :
  (a, Ok n) ∈ (run_calls calls ∅).1.1 -> 0 <= n.
Proof.
  apply run_calls_nonneg. intros a' i.
  unfold registry_of. rewrite lookup_empty. simpl. by rewrite lookup_empty.
Qed.

(** X13. [inspect_count] touches the cache only under its own key and only
    at the calling proc's application: afterwards the key 'celery_inspect'
    is present, every other key of the cache is as before, and so is the
    inspector of every other application. *)
Theorem inspect_count_cache_frame (w : World) (self : CeleryProc) (c : Cache) :
  let c' := (inspect_count w self c).1.2 in
  is_Some (c' !! "celery_inspect")
  ∧ (∀ k, k ≠ "celery_inspect" -> c' !! k = c !! k)
  ∧ (∀ b, b ≠ app self -> registry_of c' !! b = registry_of c !! b).
Proof.
  simpl. rewrite inspect_count_eq.
  destruct (gen_pairs (inspect_statuses self) (queues self)) as [|p ps].
  - simpl. split_and!.
    + rewrite lookup_insert_eq. by eexists.
    + intros k Hk. by rewrite lookup_insert_ne.
    + intros b _. by rewrite registry_of_insert.
  - destruct (inspector_sum w (p :: ps) 0 _) as [[r i'] tr]. simpl. split_and!.
    + rewrite lookup_insert_eq. by eexists.
    + intros k Hk. by rewrite lookup_insert_ne.
    + intros b Hb. rewrite registry_of_insert. by apply lookup_insert_ne.
Qed.

(** ** The cost of a first call *)

(** An item access that returns asks for the status exactly when it
    memoizes it, and leaves the routing table resolved if it asked. *)
Lemma inspector_getitem_exact (w : World) (s : string) (self : Inspector) :
  is_ok (inspector_getitem w s self).1.1 = true ->
  (∀ s', (count_event (QueryStatus (insp_app self) s') (inspector_getitem w s self).2
          + has_status self s'
          = has_status (inspector_getitem w s self).1.2 s')%nat)
  ∧ (has_status self s = 0%nat ->
     has_routes (inspector_getitem w s self).1.2 = 1%nat).
Proof.
  destruct (insp_items self !! s) as [c|] eqn:Hc.
  { rewrite (inspector_getitem_hit _ _ _ c) by done. simpl. intros _.
    split; [done|]. unfold has_status. by rewrite Hc. }
  rewrite inspector_getitem_miss, get_status_task_counts_eq by done.
  unfold computed_counts. case_bool_decide as Hv; [|done].
  destruct (map_get_queue _ _) as [qs|e]; [|done]. simpl. intros _.
  split; [|done]. intros s'.
  rewrite count_event_app, count_event_singleton.
  assert (count_event (QueryStatus (insp_app self) s') (resolve_events self)
          = 0%nat) as ->.
  { unfold resolve_events. destruct (route_queues self); [done|].
    by rewrite count_event_singleton, decide_False by done. }
  unfold has_status. simpl. rewrite lookup_insert.
  destruct (decide (s = s')) as [<-|Hne].
  - rewrite decide_True by done. by rewrite Hc.
  - rewrite decide_False by (intros [= ?]; done).
    by destruct (insp_items self !! s').
Qed.

Lemma inspector_sum_exact (w : World) pairs acc (self : Inspector) :
  is_ok (inspector_sum w pairs acc self).1.1 = true ->
  ∀ s', (count_event (QueryStatus (insp_app self) s') (inspector_sum w pairs acc self).2
         + has_status self s'
         = has_status (inspector_sum w pairs acc self).1.2 s')%nat.
Proof.
  revert acc self. induction pairs as [|[s q] pairs IH]; intros acc self.
  - done.
  - rewrite inspector_sum_cons.
    pose proof (inspector_getitem_exact w s self) as Hex.
    pose proof (inspector_getitem_delta w s self) as (Happ & _).
    destruct (inspector_getitem w s self) as [[[c|e] self1] tr1];
      simpl in Hex, Happ; [|done].
    destruct (Hex eq_refl) as [Hex1 _].
    specialize (IH (acc + counter_get c q) self1).
    destruct (inspector_sum w pairs _ self1) as [[r2 self2] tr2]. simpl in *.
    intros Hok s'. specialize (IH Hok s'). rewrite Happ in IH.
    rewrite count_event_app. specialize (Hex1 s'). lia.
Qed.

(** X14. A first call for an application on a cache, when it returns, has
    cost exactly one inspector, one query for the bindings and one query
    per configured status, however many queues the proc has; and all its
    events concern the proc's application. *)
Theorem inspect_count_first_call_cost (w : World) (self : CeleryProc) (c : Cache)
    (s0 q0 : string) (ss qs : list string) :
  registry_of c !! app self = None ->
  inspect_statuses self = s0 :: ss ->
  queues self = q0 :: qs ->
  is_ok (inspect_count w self c).1.1 = true ->
  let tr := (inspect_count w self c).2 in
  count_event (NewInspector (app self)) tr = 1%nat
  ∧ count_event (QueryActiveQueues (app self)) tr = 1%nat
  ∧ (∀ s, s ∈ inspect_statuses self ->
          count_event (QueryStatus (app self) s) tr = 1%nat)
  ∧ ∀ e, e ∈ tr -> event_app e = app self.
Proof.
  intros Hnone Hst Hq. simpl. rewrite inspect_count_eq.
  unfold cache_inspector, new_events. rewrite Hnone. simpl.
  pose proof (λ sq, elem_of_gen_pairs (inspect_statuses self) (queues self) sq)
    as Hpairs_in.
  assert (Hcover : ∀ s, s ∈ inspect_statuses self ->
                        (s, q0) ∈ gen_pairs (inspect_statuses self) (queues self)).
  { intros s Hs. unfold gen_pairs. apply list_elem_of_In, in_flat_map.
    exists s. split; [by apply list_elem_of_In|].
    rewrite Hq. by left. }
  rewrite Hst, Hq in *.
  change (gen_pairs (s0 :: ss) (q0 :: qs))
    with ((s0, q0) :: (map (pair s0) qs ++ gen_pairs ss (q0 :: qs))) in *.
  cbv beta iota.
  set (pairs := (s0, q0) :: _) in *.
  pose proof (inspector_sum_delta w pairs 0 (CeleryInspector (app self)))
    as (_ & Hev & Hnew & Hroutes & _).
  pose proof (inspector_sum_exact w pairs 0 (CeleryInspector (app self))) as Hex.
  pose proof (inspector_sum_memoizes w pairs 0 (CeleryInspector (app self)))
    as Hmemo.
  assert (Hr1 : is_ok (inspector_sum w pairs 0 (CeleryInspector (app self))).1.1
                = true ->
                has_routes (inspector_sum w pairs 0 (CeleryInspector (app self))).1.2
                = 1%nat).
  { unfold pairs. rewrite inspector_sum_cons.
    pose proof (inspector_getitem_exact w s0 (CeleryInspector (app self))) as Hg.
    destruct (inspector_getitem w s0 _) as [[[c0|e] self1] tr1]; simpl in Hg;
      [|done].
    destruct (Hg eq_refl) as [_ Hroutes1].
    pose proof (inspector_sum_delta w (map (pair s0) qs ++ gen_pairs ss (q0 :: qs))
                  (0 + counter_get c0 q0) self1) as (_ & _ & _ & Hr & _).
    destruct (inspector_sum w _ _ self1) as [[r2 self2] tr2]. simpl in *.
    intros _. pose proof (has_routes_le_1 self2).
    rewrite Hroutes1 in Hr by done. lia. }
  destruct (inspector_sum w pairs 0 _) as [[r i'] tr].
  simpl in Hev, Hnew, Hroutes, Hex, Hmemo, Hr1. cbn [fst snd].
  intros Hok. specialize (Hr1 Hok).
  change (NewInspector (app self) :: tr) with ([NewInspector (app self)] ++ tr).
  split_and!.
  - by rewrite count_event_app, count_event_singleton, Hnew, decide_True.
  - rewrite count_event_app, count_event_singleton, decide_False by done.
    unfold has_routes in Hroutes at 1. simpl in Hroutes. lia.
  - intros s Hs.
    rewrite count_event_app, count_event_singleton, decide_False by done.
    destruct (Hmemo Hok (s, q0) (Hcover s Hs)) as (c1 & Hc1 & _). simpl in Hc1.
    specialize (Hex Hok s). unfold has_status in Hex. simpl in Hex.
    rewrite lookup_empty, Hc1 in Hex. simpl. lia.
  - intros e He. apply elem_of_app in He as [He|He]; [|by apply Hev].
    by apply list_elem_of_singleton in He as ->.
Qed.

(** ** Instances *)

Lemma quantity_direct_size_reads_sizes_only_witness :
  (quantity idle_world redis_proc None).1.1
  = (quantity one_task_world redis_proc (Some ∅)).1.1.
Proof.
  refine (proj1 (quantity_direct_size_reads_sizes_only idle_world one_task_world
                   redis_proc redis_proc None (Some ∅) _ _ _ _));
    reflexivity.
Defined.

Lemma quantity_direct_size_error_propagates_witness :
  quantity idle_world failing_size_proc None
  = (Raise (OtherError "connection lost"), None, []).
Proof.
  apply (quantity_direct_size_error_propagates idle_world failing_size_proc None
           (λ q, if decide (q = "y") then Raise (OtherError "connection lost")
                 else Ok 2) ["x"] [] "y").
  - reflexivity.
  - reflexivity.
  - intros x Hx. apply list_elem_of_singleton in Hx as ->. reflexivity.
  - reflexivity.
Defined.

Lemma quantity_passive_declare_other_error_propagates_witness :
  quantity one_task_world broken_declare_proc (Some ∅)
  = (Raise (OtherError "connection lost"), Some ∅, []).
Proof.
  apply (quantity_passive_declare_other_error_propagates one_task_world
           broken_declare_proc (Some ∅) ["x"] [] "y").
  - reflexivity.
  - reflexivity.
  - intros x Hx. apply list_elem_of_singleton in Hx as ->. by left.
  - reflexivity.
  - discriminate.
Defined.

Lemma quantity_no_statuses_ignores_cache_witness :
  quantity one_task_world xy_proc (Some ∅) = (Ok 5, Some ∅, []).
Proof.
  rewrite (quantity_no_statuses_ignores_cache one_task_world xy_proc ∅).
  - reflexivity.
  - reflexivity.
Defined.

Lemma quantity_passive_total_witness :
  (quantity one_task_world amqp_inspecting_proc (Some ∅)).1.1 = Ok (3 + 1).
Proof.
  rewrite (quantity_passive_total one_task_world amqp_inspecting_proc ∅
             one_task_tallies).
  - reflexivity.
  - reflexivity.
  - intros q _. by right.
  - discriminate.
  - intros s Hs. apply list_elem_of_singleton in Hs as ->. reflexivity.
Defined.

Lemma inspect_count_memoized_no_query_witness :
  inspect_count idle_world amqp_inspecting_proc warm_cache = (Ok 1, warm_cache, []).
Proof.
  rewrite (inspect_count_memoized_no_query idle_world amqp_inspecting_proc
             warm_cache warm_inspector one_task_tallies).
  - reflexivity.
  - reflexivity.
  - intros s Hs. apply list_elem_of_singleton in Hs as ->. reflexivity.
Defined.

Lemma inspect_count_repeat_witness :
  inspect_count idle_world amqp_inspecting_proc warm_cache = (Ok 1, warm_cache, []).
Proof.
  apply (inspect_count_repeat one_task_world idle_world amqp_inspecting_proc ∅ 1).
  reflexivity.
Defined.


Lemma inspect_count_counts_routed_tasks_witness :
  (inspect_count two_task_world twice_active_proc ∅).1.1 = Ok 2.
Proof.
  rewrite (inspect_count_counts_routed_tasks two_task_world twice_active_proc ∅).
  - reflexivity.
  - reflexivity.
  - apply NoDup_cons_2; [|apply NoDup_singleton].
    intros Hin. apply list_elem_of_singleton in Hin. discriminate Hin.
  - intros s Hs. simpl in Hs.
    repeat (apply elem_of_cons in Hs as [-> | Hs];
            [unfold valid_statuses; set_solver|]).
    by apply elem_of_nil in Hs.
  - intros s t Hs Ht. simpl in Hs.
    repeat (apply elem_of_cons in Hs as [-> | Hs];
            [repeat (apply elem_of_cons in Ht as [-> | Ht]; [by eexists|]);
             by apply elem_of_nil in Ht|]).
    by apply elem_of_nil in Hs.
Defined.

Lemma get_status_task_counts_order_independent_witness :
  (get_status_task_counts two_task_world_swapped "active" (CeleryInspector 0%nat)).1.1
  = (get_status_task_counts two_task_world "active" (CeleryInspector 0%nat)).1.1.
Proof.
  refine (proj1 (get_status_task_counts_order_independent two_task_world
                   two_task_world_swapped "active" (CeleryInspector 0%nat)
                   _ _ _ _)).
  - by left.
  - vm_compute. reflexivity.
  - apply perm_swap.
  - intros t Ht. apply elem_of_cons in Ht as [-> | Ht]; [by eexists|].
    apply list_elem_of_singleton in Ht as ->. by eexists.
Defined.

Lemma get_route_queues_order_independent_witness :
  (get_route_queues two_task_world_swapped (CeleryInspector 0%nat)).1.1
  = (get_route_queues two_task_world (CeleryInspector 0%nat)).1.1.
Proof.
  refine (proj1 (get_route_queues_order_independent two_task_world
                   two_task_world_swapped (CeleryInspector 0%nat) _ _ _)).
  - reflexivity.
  - intros b1 b2 H1 H2 Hk.
    apply elem_of_cons in H1 as [-> | H1];
      [|apply list_elem_of_singleton in H1 as ->];
      (apply elem_of_cons in H2 as [-> | H2];
       [|apply list_elem_of_singleton in H2 as ->]);
      first [reflexivity | discriminate Hk].
  - apply perm_swap.
Defined.

Lemma inspect_count_never_negative_witness :
  (0%nat, Ok 1) ∈ (run_calls [(reliable one_task_world, active_q_proc)] ∅).1.1
  ∧ 0 <= 1.
Proof.
  assert (Hin : (0%nat, Ok 1)
                ∈ (run_calls [(reliable one_task_world, active_q_proc)] ∅).1.1)
    by (by left).
  split; [exact Hin|].
  exact (inspect_count_never_negative
           [(reliable one_task_world, active_q_proc)] 0%nat 1 Hin).
Defined.

Lemma inspect_count_cache_frame_witness :
  let c' := (inspect_count one_task_world active_q_proc shared_cache).1.2 in
  (registry_of shared_cache !! 0%nat = None ∧ is_Some (registry_of c' !! 0%nat))
  ∧ (is_Some (registry_of shared_cache !! 1%nat)
     ∧ registry_of c' !! 1%nat = registry_of shared_cache !! 1%nat)
  ∧ (shared_cache !! "other_entry" = Some ∅
     ∧ c' !! "other_entry" = shared_cache !! "other_entry").
Proof.
  destruct (inspect_count_cache_frame one_task_world active_q_proc shared_cache)
    as (_ & Hkeys & Hothers).
  split_and!.
  - reflexivity.
  - vm_compute. by eexists.
  - vm_compute. by eexists.
  - apply Hothers. discriminate.
  - reflexivity.
  - apply Hkeys. discriminate.
Defined.

Lemma inspect_count_first_call_cost_witness :
  count_event (QueryStatus 0%nat "reserved")
    (inspect_count one_task_world inspecting_proc ∅).2 = 1%nat.
Proof.
  refine (proj1 (proj2 (proj2 (inspect_count_first_call_cost one_task_world
                                 inspecting_proc ∅ "active" "q" ["reserved"] ["x"]
                                 _ _ _ _))) "reserved" _).
  - reflexivity.
  - reflexivity.
  - reflexivity.
  - reflexivity.
  - right. by left.
Defined.
